(** * httperf: the [uri_wlog] load generator (src/gen/uri_wlog.c)

    A shallow embedding of the log replay generator: the escape decoder
    [unescape_local], the per-call handler [set_uri] and [init_wlog],
    followed by the properties of the replay sequence.

    Conventions.  A C [char] is an [ascii]; a region of memory is a
    [list ascii] and a pointer into it is the suffix of the region that
    starts at the pointee (or an offset from [fbase] for the three file
    scope pointers).  Reading outside the modelled region is undefined
    behaviour and is reported as [Undefined].  Offsets and lengths are
    [nat]: the file is assumed shorter than [INT_MAX] bytes, so that the
    [int] variables of [set_uri] hold every length exactly.

    Left out: the [printf] of [verbose] and of [DBG > 5], which change
    nothing; the failure of [strdup] and of [mmap] (a panic for want of
    memory); [stop_wlog], which only unmaps the file. *)

From Stdlib Require Import Ascii String NArith Arith Lia Bool List.
Import ListNotations.

Local Open Scope list_scope.

(** ** Characters *)

Definition NUL : ascii := "000"%char.
Definition SOH : ascii := "001"%char.         (* control-A, '\1' *)
Definition LF : ascii := "010"%char.
Definition CR : ascii := "013"%char.
Definition backslash : ascii := "\"%char.

(** ** Effects

    The handler talks to the rest of httperf through four calls; they are
    recorded in program order. *)

Inductive event : Type :=
| core_exit
| call_append_request_header (hdr : list ascii)
| call_set_uri (uri : list ascii)
| unknown_escape (ch : ascii).   (* the fprintf (stderr, ...) of unescape_local *)

(** The object a stray read fell out of. *)
Inductive object : Type :=
| log_buffer        (* the mapping [fbase, ...) *)
| header_string     (* the argument of unescape_local *)
| null_pointer.

Inductive outcome (A : Type) : Type :=
| Ret (a : A)
| Panic                    (* panic (): the process exits *)
| Undefined (o : object)   (* a read outside [o] *)
| OutOfFuel.

Arguments Ret {A} a.
Arguments Panic {A}.
Arguments Undefined {A} o.
Arguments OutOfFuel {A}.

(** A computation is the trace of the calls it made and how it ended. *)
Definition M (A : Type) : Type := (list event * outcome A)%type.

Definition ret {A} (a : A) : M A := ([], Ret a).

Definition bind {A B} (m : M A) (f : A -> M B) : M B :=
  match m with
  | (t, Ret a) => let (t', r) := f a in (t ++ t', r)
  | (t, Panic) => (t, Panic)
  | (t, Undefined o) => (t, Undefined o)
  | (t, OutOfFuel) => (t, OutOfFuel)
  end.

Definition emit (e : event) : M unit := ([e], Ret tt).
Definition panic {A} : M A := ([], Panic).
Definition undefined {A} (o : object) : M A := ([], Undefined o).
Definition out_of_fuel {A} : M A := ([], OutOfFuel).

Notation "x <- m ;; k" := (bind m (fun x => k))
  (at level 61, m at next level, right associativity).
Notation "' pat <- m ;; k" := (bind m (fun x => match x with pat => k end))
  (at level 61, pat pattern, m at next level, right associativity).
Notation "m ;;; k" := (bind m (fun _ => k))
  (at level 61, right associativity).

Definition trace {A} (m : M A) : list event := fst m.
Definition result {A} (m : M A) : outcome A := snd m.

(** ** The C library *)

(** [*p++] on an object [o]: the byte and the advanced pointer. *)
Definition deref (o : object) (p : list ascii) : M (ascii * list ascii) :=
  match p with
  | [] => undefined o
  | c :: p' => ret (c, p')
  end.

(** [strlen]: bytes before the first NUL; [None] when the region ends first. *)
Fixpoint strlen (s : list ascii) : option nat :=
  match s with
  | [] => None
  | c :: s' => if (c =? NUL)%char then Some 0 else option_map S (strlen s')
  end.

(** [memchr (s, c, n)]: offset of the first [c] among the first [n] bytes,
    [Some None] for a NULL result, [None] when the region ends first. *)
Fixpoint memchr (s : list ascii) (c : ascii) (n : nat) {struct n}
  : option (option nat) :=
  match n with
  | 0 => Some None
  | S n' =>
      match s with
      | [] => None
      | x :: s' =>
          if (x =? c)%char then Some (Some 0)
          else option_map (option_map S) (memchr s' c n')
      end
  end.

Definition is_octal (c : ascii) : bool :=
  ((48 <=? nat_of_ascii c) && (nat_of_ascii c <=? 55))%nat.

Definition is_digit (c : ascii) : bool :=
  ((48 <=? nat_of_ascii c) && (nat_of_ascii c <=? 57))%nat.

Definition digit_val (c : ascii) : N := N_of_ascii c - 48.

(** [LONG_MAX] of the LP64 targets httperf is built for. *)
Definition LONG_MAX : N := 2 ^ 63 - 1.

(** The digit loop of [strtol (s, &end, 8)].  [set_uri] only calls it on a
    string that starts with a decimal digit, so there is neither white
    space nor a sign to skip.  Yields the exact value of the octal digits
    read and the end pointer; with no octal digit at all the value is 0 and
    the end pointer is [s] itself. *)
Fixpoint oct_digits (s : list ascii) (acc : N) : option (N * list ascii) :=
  match s with
  | [] => None
  | c :: s' =>
      if is_octal c then oct_digits s' (8 * acc + digit_val c)
      else Some (acc, s)
  end.

(** [strtol (s, &end, 8)]: saturates at [LONG_MAX]. *)
Definition strtol8 (s : list ascii) : option (N * list ascii) :=
  match oct_digits s 0 with
  | Some (v, e) => Some (N.min v LONG_MAX, e)
  | None => None
  end.

(** [ch = <long>] followed by [*dp++ = ch]: the low eight bits survive. *)
Definition char_of_long (v : N) : ascii := ascii_of_N (v mod 256).

(** ** unescape_local (lines 103-151)

    [cp] is the read pointer; the bytes stored through [dp] are returned
    in order, their number being [*len].  One turn of the [for] loop
    consumes at least one byte, so [fuel] beyond the length of the region
    is never used up.

    The reads are checked against the object, the stores are not: the copy
    [strdup] makes has [strlen (str) + 1] bytes, a bound the list of bytes
    stored does not carry.  The stores stay inside the copy as long as the
    loop has not read behind the terminator of [str]; it only does so on a
    string that ends behind a backslash, and where that string is alone in
    its object, as the header copy [set_uri] passes is, the read is
    undefined then and there.  Where readable bytes follow such a string
    the loop runs on and the code stores past the copy, which shows here
    as a list longer than [strlen (str) + 1] only. *)
Fixpoint unescape_loop (fuel : nat) (cp : list ascii) : M (list ascii) :=
  match fuel with
  | 0 => out_of_fuel
  | S fuel =>
      '(ch, cp1) <- deref header_string cp ;;
      if (ch =? NUL)%char then ret []
      else if (ch =? backslash)%char then
        '(ch, cp2) <- deref header_string cp1 ;;
        if (ch =? backslash)%char then
          dst <- unescape_loop fuel cp2 ;; ret (ch :: dst)
        else if (ch =? "a")%char then
          dst <- unescape_loop fuel cp2 ;; ret (LF :: dst)
        else if (ch =? "r")%char then
          dst <- unescape_loop fuel cp2 ;; ret (CR :: dst)
        else if (ch =? "n")%char then
          dst <- unescape_loop fuel cp2 ;; ret (CR :: LF :: dst)
        else if is_digit ch then
          match strtol8 cp1 with
          | None => undefined header_string
          | Some (v, cp3) =>
              dst <- unescape_loop fuel cp3 ;; ret (char_of_long v :: dst)
          end
        else
          emit (unknown_escape ch) ;;;
          dst <- unescape_loop fuel cp2 ;; ret (ch :: dst)
      else
        dst <- unescape_loop fuel cp1 ;; ret (ch :: dst)
  end.

(** [str] is the region the argument points into: the string, its
    terminator and whatever else belongs to the same object.  A NULL
    argument is dereferenced by [strdup]. *)
Definition unescape_local (str : option (list ascii)) : M (list ascii) :=
  match str with
  | None => undefined null_pointer
  | Some s => unescape_loop (S (length s)) s
  end.

(** A C string as it sits in memory. *)
Definition cstr (s : string) : list ascii := list_ascii_of_string s ++ [NUL].

(** ** The generator's state and configuration *)

(** [param.wlog.do_loop] and [param.use_embedded_http_headers]. *)
Record params : Type := {
  do_loop : bool;
  use_embedded_http_headers : bool
}.

(** The three file scope pointers.  [fbase] is the origin: [fmem] is the
    memory readable from [fbase] on, [fend] and [fcurrent] are offsets from
    it.  The log file is the first [fend] bytes of [fmem]. *)
Record globals : Type := {
  fmem : list ascii;
  fend : nat;
  fcurrent : nat
}.

Definition fbase : nat := 0.

Definition set_fcurrent (g : globals) (p : nat) : globals :=
  {| fmem := fmem g; fend := fend g; fcurrent := p |}.

(** The memory a pointer [fbase + off] points to. *)
Definition at_ptr (g : globals) (off : nat) : list ascii := skipn off (fmem g).

Definition lift_read {A} (r : option A) : M A :=
  match r with
  | Some a => ret a
  | None => undefined log_buffer
  end.

(** ** set_uri (lines 153-247) *)

(** Lines 165-179: wrap around at the end of the list. *)
Definition wrap_around (p : params) (g : globals) (did_wrap : bool)
  : M (globals * bool) :=
  if fend g <=? fcurrent g then
    if did_wrap then panic
    else
      let g := set_fcurrent g fbase in
      (if do_loop p then ret tt else emit core_exit) ;;;
      ret (g, true)
  else ret (g, did_wrap).

(** Lines 208-222: walk the record up to its control-A.  Yields
    [extra_request_headers_len] and whether [erh_2] was allocated. *)
Fixpoint header_loop (ptr : list ascii) (extra_request_headers_len : nat)
  : M (nat * bool) :=
  match ptr with
  | [] => undefined log_buffer
  | c :: ptr' =>
      if (c =? NUL)%char then ret (extra_request_headers_len, false)
      else if (c =? SOH)%char then ret (extra_request_headers_len, true)
      else header_loop ptr' (S extra_request_headers_len)
  end.

(** Lines 191-238: with [--embedded-http-headers], cut the headers off the
    record.  [uri] and [len] come in as the record and go out as the
    request target. *)
Definition embedded_headers (p : params) (g : globals) (uri len : nat)
  : M (nat * nat) :=
  if use_embedded_http_headers p then
    extra_request_headers <- lift_read (memchr (at_ptr g uri) SOH len) ;;
    match extra_request_headers with
    | Some i =>
        let extra_request_headers := uri in
        let uri := uri + i + 1 in
        '(extra_request_headers_len, found) <-
          header_loop (at_ptr g extra_request_headers) 0 ;;
        let erh_2 :=
          if found
          then Some (firstn extra_request_headers_len
                       (at_ptr g extra_request_headers) ++ [NUL])
          else None in
        extra_request_headers_escaped <- unescape_local erh_2 ;;
        emit (call_append_request_header extra_request_headers_escaped) ;;;
        ret (uri, len - (extra_request_headers_len + 1))
    | None => ret (uri, len)
    end
  else ret (uri, len).

(** The [do ... while (len == 0)] loop. *)
Fixpoint set_uri_loop (fuel : nat) (p : params) (g : globals) (did_wrap : bool)
  : M globals :=
  match fuel with
  | 0 => out_of_fuel
  | S fuel =>
      '(g, did_wrap) <- wrap_around p g did_wrap ;;
      let uri := fcurrent g in
      len <- lift_read (strlen (at_ptr g (fcurrent g))) ;;
      let len_to_advance := len in
      '(uri, len) <- embedded_headers p g uri len ;;
      emit (call_set_uri (firstn len (at_ptr g uri))) ;;;
      let g := set_fcurrent g (fcurrent g + len_to_advance + 1) in
      if len =? 0 then set_uri_loop fuel p g did_wrap else ret g
  end.

(** Every turn moves [fcurrent] forward by at least one byte and there is at
    most one wrap, so [2 * fend + 2] turns are never exhausted
    ([set_uri_total]). *)
Definition set_uri (p : params) (g : globals) : M globals :=
  set_uri_loop (2 * fend g + 2) p g false.

(** ** init_wlog (lines 249-278)

    [file] is the content of [param.wlog.file], [None] when it cannot be
    opened; [pad] is what can be read right behind the mapping (the zero
    fill of its last page). *)
Definition init_wlog (file : option (list ascii)) (pad : list ascii)
  : M globals :=
  match file with
  | None => panic
  | Some f =>
      if length f =? 0 then panic
      else ret {| fmem := f ++ pad; fend := length f; fcurrent := fbase |}
  end.

(** ** stop_wlog (lines 280-284)

    The region handed to [munmap]: its start and its length. *)
Definition stop_wlog (g : globals) : nat * nat := (fbase, fend g - fbase).

(** ** Successive calls *)

(** Modelled from the spec: the request object of call.h, which is not part
    of this file.  It "exposes set_target (bytes, length) and append_header
    (bytes, length)": the target is overwritten, headers accumulate. *)
Record Call : Type := {
  req_uri : list ascii;
  req_extra_hdrs : list (list ascii)
}.

Definition new_call : Call := {| req_uri := []; req_extra_hdrs := [] |}.

Definition call_apply (c : Call) (e : event) : Call :=
  match e with
  | call_set_uri u => {| req_uri := u; req_extra_hdrs := req_extra_hdrs c |}
  | call_append_request_header h =>
      {| req_uri := req_uri c; req_extra_hdrs := req_extra_hdrs c ++ [h] |}
  | _ => c
  end.

(** The call object once the handler has returned. *)
Definition call_after (t : list event) : Call := fold_left call_apply t new_call.

Definition map_outcome {A B} (f : A -> B) (r : outcome A) : outcome B :=
  match r with
  | Ret a => Ret (f a)
  | Panic => Panic
  | Undefined o => Undefined o
  | OutOfFuel => OutOfFuel
  end.

(** [k] new calls in a row: the trace of each handler invocation that
    returned, in order, and the state reached (or how the run broke off). *)
Fixpoint replay (p : params) (g : globals) (k : nat)
  : list (list event) * outcome globals :=
  match k with
  | 0 => ([], Ret g)
  | S k' =>
      match set_uri p g with
      | (t, Ret g') => let (ts, r) := replay p g' k' in (t :: ts, r)
      | (_, r) => ([], map_outcome (fun _ => g) r)
      end
  end.

(** The target each of these calls went out with. *)
Definition uris (run : list (list event) * outcome globals)
  : list (list ascii) :=
  map (fun t => req_uri (call_after t)) (fst run).

(** The log file made of the given records, each with its terminator. *)
Definition log_of (recs : list (list ascii)) : list ascii :=
  flat_map (fun r => r ++ [NUL]) recs.

Definition str (s : string) : list ascii := list_ascii_of_string s.

(** * Vocabulary of the proofs

    Predicates on records and logs, the record-by-record view of the cursor
    and the example logs.  None of it is part of the program. *)

(** ** Records *)

Definition nul_free (r : list ascii) : bool :=
  forallb (fun c => negb (c =? NUL)%char) r.

Definition soh_free (r : list ascii) : bool :=
  forallb (fun c => negb (c =? SOH)%char) r.

Definition nonempty (r : list ascii) : bool := negb (length r =? 0).

(** The record cut at its first control-A. *)
Fixpoint cut (r : list ascii) : option (list ascii * list ascii) :=
  match r with
  | [] => None
  | c :: r' =>
      if (c =? SOH)%char then Some ([], r')
      else match cut r' with
           | Some (h, t) => Some (c :: h, t)
           | None => None
           end
  end.

(** What one turn of the loop of [set_uri] does with the record [r] under
    the cursor, told without pointers: the calls made and the target. *)
Definition record_step (p : params) (r : list ascii) : M (list ascii) :=
  if use_embedded_http_headers p then
    match cut r with
    | Some (h, t) =>
        hdr <- unescape_local (Some (h ++ [NUL])) ;;
        emit (call_append_request_header hdr) ;;;
        emit (call_set_uri t) ;;;
        ret t
    | None => emit (call_set_uri r) ;;; ret r
    end
  else emit (call_set_uri r) ;;; ret r.

(** The target a record yields, and whether a request goes out with it. *)
Definition target (p : params) (r : list ascii) : list ascii :=
  match result (record_step p r) with
  | Ret tg => tg
  | _ => []
  end.

Definition productive (p : params) (r : list ascii) : bool :=
  match result (record_step p r) with
  | Ret (_ :: _) => true
  | _ => false
  end.

(** ** The cursor seen from the records *)

(** The state in which the log is [log_of all], [pad] lies behind it and
    the records [todo], a suffix of [all], are still ahead of the cursor. *)
Definition at_record (all : list (list ascii)) (pad : list ascii)
    (todo : list (list ascii)) : globals :=
  {| fmem := log_of all ++ pad;
     fend := length (log_of all);
     fcurrent := length (log_of all) - length (log_of todo) |}.

(** One pass over the records ahead: [Some rest] when a target was
    produced, [None] when every record was skipped. *)
Fixpoint scan (p : params) (todo : list (list ascii))
  : M (option (list (list ascii))) :=
  match todo with
  | [] => ret None
  | r :: todo' =>
      t <- record_step p r ;;
      if length t =? 0 then scan p todo' else ret (Some todo')
  end.

(** [set_uri] on the records: finish the pass, wrap once, panic on a
    second fruitless pass. *)
Definition set_uri_recs (p : params) (all todo : list (list ascii))
  : M (list (list ascii)) :=
  o <- scan p todo ;;
  match o with
  | Some rest => ret rest
  | None =>
      (if do_loop p then ret tt else emit core_exit) ;;;
      o <- scan p all ;;
      match o with
      | Some rest => ret rest
      | None => panic
      end
  end.

(** [replay] on the records. *)
Fixpoint replay_recs (p : params) (all todo : list (list ascii)) (k : nat)
  : list (list event) * outcome (list (list ascii)) :=
  match k with
  | 0 => ([], Ret todo)
  | S k' =>
      match set_uri_recs p all todo with
      | (t, Ret rest) =>
          let (ts, r) := replay_recs p all rest k' in (t :: ts, r)
      | (_, r) => ([], map_outcome (fun _ => todo) r)
      end
  end.

(** ** Logs and configurations *)

(** A log in the documented format: at least one record, no NUL inside a
    record. *)
Definition well_formed (recs : list (list ascii)) : bool :=
  negb (length recs =? 0) && forallb nul_free recs.

(** The records are taken as they are: no [--embedded-http-headers], or no
    control-A anywhere. *)
Definition plain (p : params) (recs : list (list ascii)) : bool :=
  negb (use_embedded_http_headers p) || forallb soh_free recs.

(** The log without its empty records. *)
Definition collapse (recs : list (list ascii)) : list (list ascii) :=
  filter nonempty recs.

Definition no_loop_plain : params :=
  {| do_loop := false; use_embedded_http_headers := false |}.
Definition loop_plain : params :=
  {| do_loop := true; use_embedded_http_headers := false |}.
Definition no_loop_embedded : params :=
  {| do_loop := false; use_embedded_http_headers := true |}.
Definition loop_embedded : params :=
  {| do_loop := true; use_embedded_http_headers := true |}.

(** The log [H^A\0/a\0/b\0] under [--embedded-http-headers]. *)
Definition log_with_bare_header : list (list ascii) :=
  [str "H" ++ [SOH]; str "/a"; str "/b"].

(** The log [\0/a\0\0\0/b\0]: runs of terminators around two records. *)
Definition log_with_empty_records : list (list ascii) :=
  [[]; str "/a"; []; []; str "/b"].

(** The log [H^A/u\0] under [--embedded-http-headers]. *)
Definition log_with_header : list (list ascii) :=
  [str "H" ++ [SOH] ++ str "/u"].

(** The record [GET-header^A/index.html], alone in its log. *)
Definition get_header_log : globals :=
  at_record [str "GET-header" ++ SOH :: str "/index.html"] []
            [str "GET-header" ++ SOH :: str "/index.html"].

(** ** Traces *)

Definition is_empty_target (e : event) : bool :=
  match e with
  | call_set_uri [] => true
  | _ => false
  end.

(** The host calls of a trace, but for [call_set_uri] with no bytes. *)
Definition vis (t : list event) : list event :=
  filter (fun e => negb (is_empty_target e)) t.

(** The targets a trace hands to [call_set_uri], in order. *)
Definition handed (t : list event) : list (list ascii) :=
  flat_map (fun e => match e with
                     | call_set_uri u => [u]
                     | _ => []
                     end) t.

(** Two computations that differ in such calls only. *)
Definition sim {A B} (f : A -> B) (m1 : M A) (m2 : M B) : Prop :=
  vis (fst m1) = vis (fst m2) /\ snd m2 = map_outcome f (snd m1).

(** A handler invocation that returns ends on [call_set_uri] with a
    target that is not empty. *)
Definition completed (t : list event) : Prop :=
  exists t0 u, t = t0 ++ [call_set_uri u] /\ nonempty u = true.

(** The diagnostics of the decoder. *)
Definition is_warning (e : event) : bool :=
  match e with
  | unknown_escape _ => true
  | _ => false
  end.

(** The object an undefined read fell out of. *)
Definition fault {A} (r : outcome A) : option object :=
  match r with
  | Undefined o => Some o
  | _ => None
  end.

(** ** Escapes *)

(** The base 8 number written by a run of digits. *)
Definition octal_value (ds : list ascii) : N :=
  fold_left (fun acc c => 8 * acc + digit_val c)%N ds 0%N.

(** The run of octal digits ends here. *)
Definition ends_octal (rest : list ascii) : bool :=
  match rest with
  | [] => false
  | c :: _ => negb (is_octal c)
  end.

(** What one turn of the loop of [unescape_local] comes to. *)
Inductive turn : Type :=
| stop                          (* the terminator was read: the loop ends *)
| stray                         (* a read outside the string *)
| store (w : list event) (bytes cp : list ascii).
                                (* diagnostics, bytes stored, new [cp] *)

Definition one_turn (cp : list ascii) : turn :=
  match cp with
  | [] => stray
  | ch :: cp1 =>
      if (ch =? NUL)%char then stop
      else if (ch =? backslash)%char then
        match cp1 with
        | [] => stray
        | ch2 :: cp2 =>
            if (ch2 =? backslash)%char then store [] [ch2] cp2
            else if (ch2 =? "a")%char then store [] [LF] cp2
            else if (ch2 =? "r")%char then store [] [CR] cp2
            else if (ch2 =? "n")%char then store [] [CR; LF] cp2
            else if is_digit ch2 then
              match strtol8 cp1 with
              | None => stray
              | Some (v, cp3) => store [] [char_of_long v] cp3
              end
            else store [unknown_escape ch2] [ch2] cp2
        end
      else store [] [ch] cp1
  end.

(** Whether the decoder, reading [s] from the left, finds itself behind a
    backslash when the string is over. *)
Fixpoint dangling (s : list ascii) : bool :=
  match s with
  | [] => false
  | c :: s1 =>
      if (c =? backslash)%char then
        match s1 with
        | [] => true
        | _ :: s2 => dangling s2
        end
      else dangling s1
  end.

(** ** Host calls *)

Definition is_core_exit (e : event) : bool :=
  match e with
  | core_exit => true
  | _ => false
  end.

(** How often a trace asks for the test to stop. *)
Definition count_exit (t : list event) : nat := length (filter is_core_exit t).

(** The calls of the handler without [--embedded-http-headers]. *)
Definition is_uri_or_exit (e : event) : bool :=
  match e with
  | core_exit | call_set_uri _ => true
  | _ => false
  end.

(** The calls made while the headers are cut off. *)
Definition is_header_event (e : event) : bool :=
  match e with
  | call_append_request_header _ | unknown_escape _ => true
  | _ => false
  end.

(** A turn of the loop of [set_uri] behind its wrap test (lines 180-243). *)
Definition turn_body (fuel : nat) (p : params) (g : globals) (did_wrap : bool)
  : M globals :=
  len <- lift_read (strlen (at_ptr g (fcurrent g))) ;;
  bind (embedded_headers p g (fcurrent g) len)
    (fun ul : nat * nat =>
       let (uri, len0) := ul in
       emit (call_set_uri (firstn len0 (at_ptr g uri))) ;;;
       (if len0 =? 0
        then set_uri_loop fuel p (set_fcurrent g (fcurrent g + len + 1)) did_wrap
        else ret (set_fcurrent g (fcurrent g + len + 1)))).

Definition backslash_free (r : list ascii) : bool :=
  forallb (fun c => negb (c =? backslash)%char) r.



(** * Properties *)

(** ** The monad *)

Lemma bind_ret_l {A B} (a : A) (f : A -> M B) : bind (ret a) f = f a.
Proof. unfold bind, ret. destruct (f a). reflexivity. Qed.

Lemma bind_ret_r {A} (m : M A) : bind m ret = m.
Proof.
  destruct m as [t [a| |o|]]; simpl; try reflexivity.
  now rewrite app_nil_r.
Qed.

Lemma bind_assoc {A B C} (m : M A) (f : A -> M B) (g : B -> M C) :
  bind (bind m f) g = bind m (fun a => bind (f a) g).
Proof.
  destruct m as [t [a| |o|]]; simpl; try reflexivity.
  destruct (f a) as [t1 [b| |o|]]; simpl; try reflexivity.
  destruct (g b) as [t2 r]. now rewrite app_assoc.
Qed.

Lemma bind_emit {B} (e : event) (f : unit -> M B) :
  bind (emit e) f = (e :: fst (f tt), snd (f tt)).
Proof. unfold bind, emit. destruct (f tt). reflexivity. Qed.

Lemma bind_ext {A B} (m : M A) (f g : A -> M B) :
  (forall a, f a = g a) -> bind m f = bind m g.
Proof.
  intros H. destruct m as [t [a| |o|]]; simpl; try reflexivity.
  now rewrite H.
Qed.

Lemma bind_total {A B} (m : M A) (f : A -> M B) :
  result m <> OutOfFuel -> (forall a, result (f a) <> OutOfFuel) ->
  result (bind m f) <> OutOfFuel.
Proof.
  intros Hm Hf. destruct m as [t [a| |o|]]; simpl in *; try congruence.
  specialize (Hf a). destruct (f a). exact Hf.
Qed.

Lemma bind_fuel {A B} (m : M A) (f : A -> M B) :
  result (bind m f) <> OutOfFuel -> result m <> OutOfFuel.
Proof. destruct m as [t [a| |o|]]; simpl; congruence. Qed.

Lemma bind_fault {A B} (m : M A) (f : A -> M B) o :
  fault (result (bind m f)) = Some o ->
  fault (result m) = Some o \/
  exists a, result m = Ret a /\ fault (result (f a)) = Some o.
Proof.
  destruct m as [t [a| |o'|]]; simpl; try discriminate; try tauto.
  destruct (f a) as [t' r] eqn:E. simpl. intros H. right. exists a.
  rewrite E. now split.
Qed.

Tactic Notation "bind_fault" hyp(H) "as" ident(a) :=
  apply bind_fault in H as [H|(a & _ & H)].

Lemma bind_warnings {A B} (m : M A) (f : A -> M B) :
  forallb is_warning (trace m) = true ->
  (forall a, forallb is_warning (trace (f a)) = true) ->
  forallb is_warning (trace (bind m f)) = true.
Proof.
  intros Hm Hf. destruct m as [t [a| |o|]]; simpl in *; trivial.
  specialize (Hf a). destruct (f a) as [t' r]. simpl in *.
  rewrite forallb_app, Hm, Hf. reflexivity.
Qed.

(** Calls made ahead of a computation do not change how it ends. *)
Lemma result_after {A} (w : list event) (m : M A) :
  result ((w, Ret tt) ;;; m) = result m.
Proof. simpl. now destruct m. Qed.

(** ** Strings in memory *)

Lemma nul_free_app r s : nul_free (r ++ s) = nul_free r && nul_free s.
Proof. apply forallb_app. Qed.

Lemma strlen_record r rest :
  nul_free r = true -> strlen (r ++ NUL :: rest) = Some (length r).
Proof.
  induction r as [|c r IH]; simpl; intros H.
  - reflexivity.
  - apply andb_true_iff in H as [Hc Hr].
    apply negb_true_iff in Hc. rewrite Hc, (IH Hr). reflexivity.
Qed.

Lemma cut_spec r h t :
  cut r = Some (h, t) -> r = h ++ SOH :: t /\ soh_free h = true.
Proof.
  revert h t. induction r as [|c r IH]; simpl; intros h t H; [discriminate|].
  destruct (Ascii.eqb_spec c SOH) as [->|Hc].
  - inversion H; subst. now split.
  - destruct (cut r) as [[h' t']|]; [|discriminate].
    inversion H; subst. destruct (IH h' t eq_refl) as [-> Hh]. split.
    + reflexivity.
    + simpl. rewrite Hh. apply Ascii.eqb_neq in Hc. now rewrite Hc.
Qed.

Lemma cut_app h t : soh_free h = true -> cut (h ++ SOH :: t) = Some (h, t).
Proof.
  induction h as [|c h IH]; simpl; intros H.
  - reflexivity.
  - apply andb_true_iff in H as [Hc Hh]. apply negb_true_iff in Hc.
    now rewrite Hc, (IH Hh).
Qed.

Lemma cut_none r : cut r = None <-> soh_free r = true.
Proof.
  induction r as [|c r IH]; simpl; [tauto|].
  destruct (c =? SOH)%char; simpl.
  - split; discriminate.
  - destruct (cut r) as [[h t]|]; rewrite <- IH; split; congruence.
Qed.

Lemma memchr_cut r rest :
  memchr (r ++ rest) SOH (length r)
  = Some (option_map (fun ht => length (fst ht)) (cut r)).
Proof.
  induction r as [|c r IH]; simpl.
  - reflexivity.
  - destruct (c =? SOH)%char; [reflexivity|].
    rewrite IH. now destruct (cut r) as [[h t]|].
Qed.

Lemma header_loop_cut h t rest k :
  nul_free h = true -> soh_free h = true ->
  header_loop (h ++ SOH :: t ++ rest) k = ret (k + length h, true).
Proof.
  revert k. induction h as [|c h IH]; simpl; intros k Hn Hs.
  - now rewrite Nat.add_0_r.
  - apply andb_true_iff in Hn as [Hc Hn]. apply negb_true_iff in Hc.
    apply andb_true_iff in Hs as [Hc' Hs]. apply negb_true_iff in Hc'.
    rewrite Hc, Hc', (IH (S k) Hn Hs). f_equal. f_equal. lia.
Qed.

(** A record that holds a control-A has a first one. *)
Lemma cut_exists r :
  soh_free r = false ->
  exists h t, r = h ++ SOH :: t /\ soh_free h = true.
Proof.
  intros H. destruct (cut r) as [[h t]|] eqn:E.
  - exists h, t. now apply cut_spec.
  - apply cut_none in E. congruence.
Qed.

(** Whatever the memory holds: when [memchr] finds a control-A among the
    [len = strlen] bytes of the record, the [while] loop of lines 211-222
    stops on the same byte.  So [erh_2] is never NULL when it is passed on,
    and [len -= extra_request_headers_len + 1] never goes below zero. *)
Lemma header_loop_memchr s : forall len i k,
  strlen s = Some len -> memchr s SOH len = Some (Some i) ->
  header_loop s k = ret (k + i, true) /\ i + 1 <= len.
Proof.
  induction s as [|c s IH]; intros len i k Hl Hm; [discriminate|].
  simpl in Hl. destruct (c =? NUL)%char eqn:Ec.
  - inversion Hl; subst. discriminate.
  - destruct (strlen s) as [len'|] eqn:El; [|discriminate].
    inversion Hl; subst. simpl in Hm. simpl. rewrite Ec.
    destruct (c =? SOH)%char.
    + inversion Hm; subst. rewrite Nat.add_0_r. split; [reflexivity|lia].
    + destruct (memchr s SOH len') as [[i'|]|] eqn:Em; try discriminate.
      inversion Hm; subst.
      destruct (IH len' i' (S k) eq_refl Em) as [H1 H2].
      rewrite H1. split; [f_equal; f_equal; lia|lia].
Qed.

(** ** unescape_local, turn by turn *)

Lemma oct_digits_length s acc v e :
  oct_digits s acc = Some (v, e) -> length e <= length s.
Proof.
  revert acc. induction s as [|c s IH]; simpl; intros acc H; [discriminate|].
  destruct (is_octal c).
  - apply IH in H. lia.
  - inversion H; subst. simpl. lia.
Qed.

Lemma strtol8_length s v e : strtol8 s = Some (v, e) -> length e <= length s.
Proof.
  unfold strtol8. destruct (oct_digits s 0) as [[v' e']|] eqn:E; [|discriminate].
  intros H. inversion H; subst. eapply oct_digits_length; eauto.
Qed.

(** One turn of the loop, with the two reads made explicit. *)
Lemma unescape_loop_S fuel ch cp1 :
  unescape_loop (S fuel) (ch :: cp1) =
  if (ch =? NUL)%char then ret []
  else if (ch =? backslash)%char then
    match cp1 with
    | [] => undefined header_string
    | ch2 :: cp2 =>
        if (ch2 =? backslash)%char then
          dst <- unescape_loop fuel cp2 ;; ret (ch2 :: dst)
        else if (ch2 =? "a")%char then
          dst <- unescape_loop fuel cp2 ;; ret (LF :: dst)
        else if (ch2 =? "r")%char then
          dst <- unescape_loop fuel cp2 ;; ret (CR :: dst)
        else if (ch2 =? "n")%char then
          dst <- unescape_loop fuel cp2 ;; ret (CR :: LF :: dst)
        else if is_digit ch2 then
          match strtol8 cp1 with
          | None => undefined header_string
          | Some (v, cp3) =>
              dst <- unescape_loop fuel cp3 ;; ret (char_of_long v :: dst)
          end
        else
          emit (unknown_escape ch2) ;;;
          dst <- unescape_loop fuel cp2 ;; ret (ch2 :: dst)
    end
  else dst <- unescape_loop fuel cp1 ;; ret (ch :: dst).
Proof.
  cbn [unescape_loop deref]. rewrite bind_ret_l.
  destruct (ch =? NUL)%char; [reflexivity|].
  destruct (ch =? backslash)%char; [|reflexivity].
  destruct cp1 as [|ch2 cp2]; [reflexivity|].
  cbn [deref]. now rewrite bind_ret_l.
Qed.

(** The same turn as a value: [unescape_loop] is [one_turn] until [stop]. *)
Lemma unescape_loop_turn fuel cp :
  unescape_loop (S fuel) cp =
  match one_turn cp with
  | stop => ret []
  | stray => undefined header_string
  | store w bytes cp' =>
      (w, Ret tt) ;;; dst <- unescape_loop fuel cp' ;; ret (bytes ++ dst)
  end.
Proof.
  assert (K : forall X : M (list ascii), (([], Ret tt) ;;; X) = X).
  { intros X. apply (bind_ret_l tt (fun _ => X)). }
  destruct cp as [|ch cp1]; [reflexivity|].
  rewrite unescape_loop_S. unfold one_turn.
  destruct (ch =? NUL)%char; [reflexivity|].
  destruct (ch =? backslash)%char; [|now rewrite K].
  destruct cp1 as [|ch2 cp2]; [reflexivity|].
  repeat match goal with
         | |- context [if ?b then _ else _] => destruct b; [now rewrite K|]
         end.
  destruct (is_digit ch2); [|reflexivity].
  destruct (strtol8 (ch2 :: cp2)) as [[v cp3]|]; [now rewrite K|reflexivity].
Qed.

Lemma one_turn_shorter cp w bytes cp' :
  one_turn cp = store w bytes cp' -> length cp' < length cp.
Proof.
  unfold one_turn. destruct cp as [|ch cp1]; [discriminate|].
  destruct (ch =? NUL)%char; [discriminate|].
  destruct (ch =? backslash)%char.
  2:{ intros H. inversion H; subst. simpl. lia. }
  destruct cp1 as [|ch2 cp2]; [discriminate|].
  repeat match goal with
         | |- context [if ?b then _ else _] =>
             destruct b; [intros H; inversion H; subst; simpl; lia|]
         end.
  destruct (is_digit ch2); [|intros H; inversion H; subst; simpl; lia].
  destruct (strtol8 (ch2 :: cp2)) as [[v cp3]|] eqn:E; [|discriminate].
  intros H. inversion H; subst. apply strtol8_length in E. simpl in *. lia.
Qed.

(** The decoder makes no host call but its diagnostics. *)
Lemma one_turn_warnings cp w bytes cp' :
  one_turn cp = store w bytes cp' -> forallb is_warning w = true.
Proof.
  unfold one_turn. destruct cp as [|ch cp1]; [discriminate|].
  destruct (ch =? NUL)%char; [discriminate|].
  destruct (ch =? backslash)%char.
  2:{ intros H. now inversion H. }
  destruct cp1 as [|ch2 cp2]; [discriminate|].
  repeat match goal with
         | |- context [if ?b then _ else _] =>
             destruct b; [intros H; now inversion H|]
         end.
  destruct (is_digit ch2); [|intros H; now inversion H].
  destruct (strtol8 (ch2 :: cp2)) as [[v cp3]|]; [|discriminate].
  intros H. now inversion H.
Qed.

Lemma unescape_loop_fuel n m s :
  length s < n -> length s < m -> unescape_loop n s = unescape_loop m s.
Proof.
  revert m s. induction n as [|n IH]; intros m s Hn Hm; [lia|].
  destruct m as [|m]; [lia|]. rewrite !unescape_loop_turn.
  destruct (one_turn s) as [| |w bytes cp'] eqn:E; try reflexivity.
  apply one_turn_shorter in E. rewrite (IH m cp'); [reflexivity|lia|lia].
Qed.

Lemma unescape_loop_total n s :
  length s < n -> result (unescape_loop n s) <> OutOfFuel.
Proof.
  revert s. induction n as [|n IH]; intros s Hn; [lia|].
  rewrite unescape_loop_turn.
  destruct (one_turn s) as [| |w bytes cp'] eqn:E; try discriminate.
  apply one_turn_shorter in E. rewrite result_after.
  apply bind_total; [apply IH; lia|discriminate].
Qed.

(** More fuel changes nothing once the loop has ended. *)
Lemma unescape_loop_mono n : forall m s,
  n <= m -> result (unescape_loop n s) <> OutOfFuel ->
  unescape_loop m s = unescape_loop n s.
Proof.
  induction n as [|n IH]; intros m s Hle Hr; [now contradiction Hr|].
  destruct m as [|m]; [lia|]. apply le_S_n in Hle.
  rewrite unescape_loop_turn in Hr. rewrite !unescape_loop_turn.
  destruct (one_turn s) as [| |w bytes cp']; try reflexivity.
  rewrite result_after in Hr. now rewrite (IH m cp' Hle (bind_fuel _ _ Hr)).
Qed.

(** The only object the decoder reads is its argument. *)
Lemma unescape_loop_fault n : forall s o,
  fault (result (unescape_loop n s)) = Some o -> o = header_string.
Proof.
  induction n as [|n IH]; intros s o H; [discriminate|].
  rewrite unescape_loop_turn in H.
  destruct (one_turn s) as [| |w bytes cp']; [discriminate|simpl in H; congruence|].
  rewrite result_after in H. bind_fault H as dst; [eauto|discriminate].
Qed.

Lemma unescape_loop_warnings n : forall s,
  forallb is_warning (trace (unescape_loop n s)) = true.
Proof.
  induction n as [|n IH]; intros s; [reflexivity|].
  rewrite unescape_loop_turn.
  destruct (one_turn s) as [| |w bytes cp'] eqn:E; try reflexivity.
  apply bind_warnings; [exact (one_turn_warnings _ _ _ _ E)|]. intros _.
  apply bind_warnings; [apply IH|reflexivity].
Qed.

(** The decoder never runs out of fuel: it returns, or it reads outside
    its argument. *)
Lemma unescape_local_total str : result (unescape_local str) <> OutOfFuel.
Proof.
  destruct str as [s|]; [|discriminate].
  unfold unescape_local. apply unescape_loop_total. lia.
Qed.

(** ** One record at a time *)

Lemma at_ptr_add g u k : at_ptr g (u + k) = skipn k (at_ptr g u).
Proof. unfold at_ptr. now rewrite skipn_skipn, Nat.add_comm. Qed.

Lemma firstn_prefix {A} (l1 l2 : list A) : firstn (length l1) (l1 ++ l2) = l1.
Proof.
  rewrite <- (Nat.add_0_r (length l1)), firstn_app_2. simpl.
  apply app_nil_r.
Qed.

Lemma skipn_prefix {A} (l1 l2 : list A) : skipn (length l1) (l1 ++ l2) = l2.
Proof.
  rewrite skipn_app, skipn_all, Nat.sub_diag. reflexivity.
Qed.

(** Lines 191-238 on a record that holds a control-A. *)
Lemma embedded_headers_cut p g uri h t rest :
  use_embedded_http_headers p = true ->
  at_ptr g uri = h ++ SOH :: t ++ NUL :: rest ->
  nul_free h = true -> soh_free h = true ->
  embedded_headers p g uri (length (h ++ SOH :: t)) =
    (hdr <- unescape_local (Some (h ++ [NUL])) ;;
     emit (call_append_request_header hdr) ;;;
     ret (uri + length h + 1, length t)).
Proof.
  intros He Hm Hn Hs. unfold embedded_headers. rewrite He, Hm.
  replace (h ++ SOH :: t ++ NUL :: rest) with ((h ++ SOH :: t) ++ NUL :: rest)
    by (now rewrite <- app_assoc).
  rewrite memchr_cut, (cut_app h t Hs). cbn [lift_read option_map fst].
  rewrite bind_ret_l. rewrite <- app_assoc. cbn [app].
  rewrite header_loop_cut by assumption. rewrite bind_ret_l. cbn [Nat.add].
  rewrite firstn_prefix. apply bind_ext. intros hdr.
  replace (length (h ++ SOH :: t) - (length h + 1)) with (length t);
    [reflexivity|]. rewrite length_app. simpl. lia.
Qed.

Lemma embedded_headers_plain p g uri r rest :
  at_ptr g uri = r ++ rest ->
  use_embedded_http_headers p = false \/ soh_free r = true ->
  embedded_headers p g uri (length r) = ret (uri, length r).
Proof.
  intros Hm H. unfold embedded_headers.
  destruct (use_embedded_http_headers p); [|reflexivity].
  destruct H as [H|H]; [discriminate|].
  rewrite Hm, memchr_cut. apply cut_none in H. rewrite H. reflexivity.
Qed.

(** A turn of the loop that starts on a record inside the file. *)
Lemma set_uri_loop_record fuel p g did_wrap r rest :
  fcurrent g < fend g ->
  at_ptr g (fcurrent g) = r ++ NUL :: rest ->
  nul_free r = true ->
  set_uri_loop (S fuel) p g did_wrap =
    (t <- record_step p r ;;
     let g' := set_fcurrent g (fcurrent g + length r + 1) in
     if length t =? 0 then set_uri_loop fuel p g' did_wrap else ret g').
Proof.
  intros Hlt Hm Hn. cbn [set_uri_loop]. unfold wrap_around.
  apply Nat.leb_gt in Hlt. rewrite Hlt, bind_ret_l.
  rewrite Hm at 1. rewrite (strlen_record r rest Hn). cbn [lift_read].
  rewrite bind_ret_l. unfold record_step.
  destruct (use_embedded_http_headers p) eqn:He.
  - destruct (cut r) as [[h t]|] eqn:Hc.
    + apply cut_spec in Hc as [-> Hs].
      rewrite nul_free_app in Hn. apply andb_true_iff in Hn as [Hnh _].
      rewrite (embedded_headers_cut p g (fcurrent g) h t rest He); trivial.
      2:{ rewrite Hm, <- app_assoc. reflexivity. }
      rewrite !bind_assoc. apply bind_ext. intros hdr.
      rewrite !bind_assoc. rewrite !bind_emit. cbn [fst snd].
      rewrite !bind_ret_l. rewrite bind_emit. cbn [fst snd].
      replace (fcurrent g + length h + 1) with (fcurrent g + (length h + 1)) by lia.
      rewrite at_ptr_add, Hm.
      replace (skipn (length h + 1) ((h ++ SOH :: t) ++ NUL :: rest))
        with (t ++ NUL :: rest).
      2:{ rewrite <- app_assoc.
          replace (length h + 1) with (length (h ++ [SOH]))
            by (rewrite length_app; reflexivity).
          replace (h ++ (SOH :: t) ++ NUL :: rest)
            with ((h ++ [SOH]) ++ t ++ NUL :: rest)
            by (rewrite <- app_assoc; reflexivity).
          now rewrite skipn_prefix. }
      rewrite firstn_prefix. reflexivity.
    + rewrite (embedded_headers_plain p g (fcurrent g) r (NUL :: rest) Hm).
      2:{ right. now apply cut_none. }
      rewrite !bind_ret_l. rewrite Hm, firstn_prefix.
      rewrite bind_assoc, !bind_emit. cbn [fst snd]. now rewrite bind_ret_l.
  - rewrite (embedded_headers_plain p g (fcurrent g) r (NUL :: rest) Hm).
    2:{ now left. }
    rewrite !bind_ret_l. rewrite Hm, firstn_prefix.
    rewrite bind_assoc, !bind_emit. cbn [fst snd]. now rewrite bind_ret_l.
Qed.

(** ** set_uri returns

    The loop is bounded: every turn leaves [fcurrent] further on, and the
    second wrap of one invocation is the panic. *)

Lemma header_loop_total ptr k : result (header_loop ptr k) <> OutOfFuel.
Proof.
  revert k. induction ptr as [|c ptr IH]; simpl; intros k; [discriminate|].
  destruct (c =? NUL)%char; [discriminate|].
  destruct (c =? SOH)%char; [discriminate|]. apply IH.
Qed.

Lemma lift_read_total {A} (r : option A) : result (lift_read r) <> OutOfFuel.
Proof. destruct r; discriminate. Qed.

Lemma embedded_headers_total p g uri len :
  result (embedded_headers p g uri len) <> OutOfFuel.
Proof.
  unfold embedded_headers.
  destruct (use_embedded_http_headers p); [|discriminate].
  apply bind_total; [apply lift_read_total|]. intros [i|]; [|discriminate].
  apply bind_total; [apply header_loop_total|]. intros [n found].
  apply bind_total; [apply unescape_local_total|]. intros hdr.
  discriminate.
Qed.

Lemma set_uri_loop_total fuel p g (did_wrap : bool) :
  (if did_wrap then 0 else fend g + 1) + (fend g - fcurrent g) < fuel ->
  result (set_uri_loop fuel p g did_wrap) <> OutOfFuel.
Proof.
  revert g did_wrap. induction fuel as [|fuel IH]; intros g dw Hf; [lia|].
  cbn [set_uri_loop]. unfold wrap_around.
  assert (K : forall g1 (dw1 : bool),
             fend g1 = fend g ->
             (if dw1 then 0 else fend g + 1) + (fend g - fcurrent g1 - 1) < fuel ->
             result
               (len <- lift_read (strlen (at_ptr g1 (fcurrent g1))) ;;
                bind (embedded_headers p g1 (fcurrent g1) len)
                  (fun ul : nat * nat =>
                     let (uri, len0) := ul in
                     emit (call_set_uri (firstn len0 (at_ptr g1 uri))) ;;;
                     (if len0 =? 0
                      then set_uri_loop fuel p
                             (set_fcurrent g1 (fcurrent g1 + len + 1)) dw1
                      else ret (set_fcurrent g1 (fcurrent g1 + len + 1)))))
             <> OutOfFuel).
  { intros g1 dw1 He Hm.
    apply bind_total; [apply lift_read_total|]. intros len.
    apply bind_total; [apply embedded_headers_total|]. intros [uri len0].
    apply bind_total; [discriminate|]. intros _.
    destruct (len0 =? 0); [|discriminate].
    apply IH. simpl. rewrite He. destruct dw1; lia. }
  destruct (fend g <=? fcurrent g) eqn:Hw.
  - destruct dw; [discriminate|].
    destruct (do_loop p).
    + rewrite !bind_ret_l. apply K; [reflexivity|]. simpl. unfold fbase. lia.
    + rewrite bind_assoc, bind_emit. cbn [fst snd result].
      rewrite !bind_ret_l.
      apply K; [reflexivity|]. simpl. unfold fbase. lia.
  - rewrite bind_ret_l. apply Nat.leb_gt in Hw. apply K; [reflexivity|].
    destruct dw; lia.
Qed.

Lemma set_uri_total p g : result (set_uri p g) <> OutOfFuel.
Proof. apply set_uri_loop_total. lia. Qed.

(** ** The cursor on a well-formed log

    A log in the documented format, [URI1\0URI2\0......URIn\0], is
    [log_of all]; the cursor always rests at the start of a record, so the
    state is known from the records [todo] still ahead of it. *)

Lemma log_of_app a b : log_of (a ++ b) = log_of a ++ log_of b.
Proof. apply flat_map_app. Qed.

Lemma log_of_cons r l : log_of (r :: l) = r ++ NUL :: log_of l.
Proof. unfold log_of. simpl. now rewrite <- app_assoc. Qed.

Lemma length_log_of_cons r l :
  length (log_of (r :: l)) = length r + 1 + length (log_of l).
Proof. rewrite log_of_cons, length_app. simpl. lia. Qed.

Lemma length_log_of_le l : length l <= length (log_of l).
Proof.
  induction l as [|r l IH]; [simpl; lia|].
  rewrite length_log_of_cons. simpl. lia.
Qed.

Lemma at_record_ptr done todo pad :
  at_ptr (at_record (done ++ todo) pad todo)
         (fcurrent (at_record (done ++ todo) pad todo))
  = log_of todo ++ pad.
Proof.
  unfold at_ptr, at_record. cbn [fmem fcurrent].
  rewrite log_of_app, length_app, Nat.add_sub, <- app_assoc.
  apply skipn_prefix.
Qed.

Lemma at_record_next done r todo pad :
  set_fcurrent (at_record (done ++ r :: todo) pad (r :: todo))
    (fcurrent (at_record (done ++ r :: todo) pad (r :: todo)) + length r + 1)
  = at_record (done ++ r :: todo) pad todo.
Proof.
  unfold set_fcurrent, at_record. cbn [fmem fend fcurrent]. f_equal.
  rewrite log_of_app, length_app, length_log_of_cons. lia.
Qed.

Lemma at_record_wrap all pad :
  set_fcurrent (at_record all pad []) fbase = at_record all pad all.
Proof.
  unfold set_fcurrent, at_record, fbase. cbn [fmem fend fcurrent]. f_equal.
  lia.
Qed.

(** A turn of the loop that starts at or behind the end of the file. *)
Lemma set_uri_loop_wrap fuel p g :
  fend g <= fcurrent g -> 0 < fend g ->
  set_uri_loop (S fuel) p g false =
    ((if do_loop p then ret tt else emit core_exit) ;;;
     set_uri_loop (S fuel) p (set_fcurrent g fbase) true).
Proof.
  intros Hge Hpos. cbn [set_uri_loop]. unfold wrap_around.
  apply Nat.leb_le in Hge. rewrite Hge.
  replace (fend (set_fcurrent g fbase) <=? fcurrent (set_fcurrent g fbase))
    with false by (symmetry; apply Nat.leb_gt; exact Hpos).
  rewrite !bind_assoc. apply bind_ext. intros _. now rewrite !bind_ret_l.
Qed.

Lemma set_uri_loop_panic fuel p g :
  fend g <= fcurrent g -> set_uri_loop (S fuel) p g true = panic.
Proof.
  intros Hge. cbn [set_uri_loop]. unfold wrap_around.
  apply Nat.leb_le in Hge. now rewrite Hge.
Qed.

Section Records.

Variable p : params.
Variable all : list (list ascii).
Variable pad : list ascii.
Hypothesis all_nul_free : forallb nul_free all = true.

Lemma suffix_nul_free done todo :
  all = done ++ todo -> forallb nul_free todo = true.
Proof.
  intros E. rewrite E, forallb_app in all_nul_free.
  now apply andb_true_iff in all_nul_free.
Qed.

(** After the wrap: the records ahead, then the panic. *)
Lemma set_uri_loop_wrapped todo : forall done fuel,
  all = done ++ todo -> length todo < fuel ->
  set_uri_loop fuel p (at_record all pad todo) true =
    (o <- scan p todo ;;
     match o with
     | Some rest => ret (at_record all pad rest)
     | None => panic
     end).
Proof.
  induction todo as [|r todo IH]; intros done fuel E Hf;
    (destruct fuel as [|fuel]; [inversion Hf|]).
  - cbn [scan]. rewrite bind_ret_l. apply set_uri_loop_panic.
    unfold at_record. cbn [fend fcurrent log_of flat_map length]. lia.
  - pose proof (suffix_nul_free _ _ E) as Hn. cbn [forallb] in Hn.
    apply andb_true_iff in Hn as [Hr _].
    rewrite (set_uri_loop_record fuel p _ true r (log_of todo ++ pad)); trivial.
    + cbn [scan]. rewrite bind_assoc. apply bind_ext. intros t.
      cbv zeta. rewrite E, at_record_next, <- E.
      destruct (length t =? 0).
      * apply (IH (done ++ [r])); [now rewrite <- app_assoc|simpl in Hf; lia].
      * now rewrite bind_ret_l.
    + unfold at_record. cbn [fend fcurrent].
      rewrite length_log_of_cons. rewrite E, log_of_app, length_app.
      rewrite length_log_of_cons. lia.
    + rewrite E, at_record_ptr, log_of_cons, <- app_assoc. reflexivity.
Qed.

(** Before the wrap. *)
Lemma set_uri_loop_recs todo : forall done fuel,
  all = done ++ todo -> all <> [] -> length todo + length all + 1 < fuel ->
  set_uri_loop fuel p (at_record all pad todo) false =
    (rest <- set_uri_recs p all todo ;; ret (at_record all pad rest)).
Proof.
  unfold set_uri_recs.
  induction todo as [|r todo IH]; intros done fuel E Hne Hf;
    (destruct fuel as [|fuel]; [inversion Hf|]).
  - cbn [scan]. rewrite bind_ret_l.
    rewrite set_uri_loop_wrap.
    + rewrite at_record_wrap, !bind_assoc. apply bind_ext. intros _.
      rewrite (set_uri_loop_wrapped all [] (S fuel)).
      * apply bind_ext. intros [rest|]; [|reflexivity].
        now rewrite bind_ret_l.
      * reflexivity.
      * simpl in Hf. lia.
    + unfold at_record. cbn [fend fcurrent log_of flat_map length]. lia.
    + unfold at_record. cbn [fend]. pose proof (length_log_of_le all).
      destruct all; [congruence|simpl in *; lia].
  - pose proof (suffix_nul_free _ _ E) as Hn. cbn [forallb] in Hn.
    apply andb_true_iff in Hn as [Hr _].
    rewrite (set_uri_loop_record fuel p _ false r (log_of todo ++ pad)); trivial.
    + cbn [scan]. rewrite !bind_assoc. apply bind_ext. intros t.
      cbv zeta. rewrite E, at_record_next, <- E.
      destruct (length t =? 0).
      * rewrite (IH (done ++ [r]));
          [now rewrite bind_assoc|now rewrite <- app_assoc|assumption
          |simpl in Hf; lia].
      * now rewrite !bind_ret_l.
    + unfold at_record. cbn [fend fcurrent].
      rewrite length_log_of_cons. rewrite E, log_of_app, length_app.
      rewrite length_log_of_cons. lia.
    + rewrite E, at_record_ptr, log_of_cons, <- app_assoc. reflexivity.
Qed.

(** [set_uri] in terms of the records. *)
Lemma set_uri_at_record done todo :
  all = done ++ todo -> all <> [] ->
  set_uri p (at_record all pad todo) =
    (rest <- set_uri_recs p all todo ;; ret (at_record all pad rest)).
Proof.
  intros E Hne. unfold set_uri. apply (set_uri_loop_recs todo done); trivial.
  cbn [at_record fend]. pose proof (length_log_of_le all).
  assert (length todo <= length all) by (rewrite E, length_app; lia).
  lia.
Qed.

End Records.

(** ** Successive calls on a well-formed log *)

Lemma scan_suffix p todo t rest :
  scan p todo = (t, Ret (Some rest)) -> exists mid, todo = mid ++ rest.
Proof.
  revert t. induction todo as [|r todo IH]; intros t H.
  - discriminate.
  - cbn [scan] in H.
    destruct (record_step p r) as [t1 [tg| |o|]]; simpl in H; try discriminate.
    destruct (length tg =? 0).
    + destruct (scan p todo) as [t2 r2] eqn:E. inversion H; subst.
      destruct (IH t2 eq_refl) as [mid ->]. now exists (r :: mid).
    + inversion H; subst. now exists [r].
Qed.

Lemma set_uri_recs_suffix p all todo done t rest :
  all = done ++ todo -> set_uri_recs p all todo = (t, Ret rest) ->
  exists done', all = done' ++ rest.
Proof.
  intros E H. unfold set_uri_recs in H.
  destruct (scan p todo) as [t1 [[r1|]| |o|]] eqn:E1; simpl in H;
    try discriminate.
  - inversion H; subst. apply scan_suffix in E1 as [mid ->].
    exists (done ++ mid). now rewrite <- app_assoc.
  - destruct (if do_loop p then ret tt else emit core_exit) as [t2 [[]| |o|]];
      simpl in H; try discriminate.
    destruct (scan p all) as [t3 [[r3|]| |o|]] eqn:E3; simpl in H;
      try discriminate.
    inversion H; subst. apply scan_suffix in E3 as [mid E3]. now exists mid.
Qed.

Lemma replay_at_record p all pad :
  forallb nul_free all = true -> all <> [] ->
  forall k done todo, all = done ++ todo ->
  replay p (at_record all pad todo) k =
    (fst (replay_recs p all todo k),
     map_outcome (at_record all pad) (snd (replay_recs p all todo k))).
Proof.
  intros Hn Hne. induction k as [|k IH]; intros done todo E.
  - reflexivity.
  - cbn [replay replay_recs].
    rewrite (set_uri_at_record p all pad Hn done todo E Hne).
    destruct (set_uri_recs p all todo) as [t [rest| |o|]] eqn:Es;
      try reflexivity.
    simpl. destruct (set_uri_recs_suffix _ _ _ _ _ _ E Es) as [done' E'].
    rewrite app_nil_r, (IH done' rest E').
    now destruct (replay_recs p all rest k).
Qed.

Lemma init_wlog_log_of all pad :
  all <> [] ->
  init_wlog (Some (log_of all)) pad = ret (at_record all pad all).
Proof.
  intros Hne. unfold init_wlog.
  destruct (length (log_of all) =? 0) eqn:E.
  - apply Nat.eqb_eq in E. pose proof (length_log_of_le all).
    destruct all; [congruence|simpl in *; lia].
  - unfold at_record, fbase. now rewrite Nat.sub_diag.
Qed.

(** ** Plain records

    Without [--embedded-http-headers], or on a record that holds no
    control-A, the record itself is the target. *)

Lemma record_step_plain p r :
  use_embedded_http_headers p = false \/ soh_free r = true ->
  record_step p r = ([call_set_uri r], Ret r).
Proof.
  intros H. unfold record_step.
  destruct (use_embedded_http_headers p); [|reflexivity].
  destruct H as [H|H]; [discriminate|].
  apply cut_none in H. now rewrite H.
Qed.

Lemma plain_In p recs r :
  plain p recs = true -> In r recs ->
  record_step p r = ([call_set_uri r], Ret r).
Proof.
  intros Hp Hin. apply record_step_plain. unfold plain in Hp.
  apply orb_true_iff in Hp as [Hp|Hp].
  - left. now apply negb_true_iff.
  - right. rewrite forallb_forall in Hp. now apply Hp.
Qed.

Lemma record_step_empty p : record_step p [] = ([call_set_uri []], Ret []).
Proof. apply record_step_plain. now right. Qed.

Lemma scan_produce p r todo :
  record_step p r = ([call_set_uri r], Ret r) -> nonempty r = true ->
  scan p (r :: todo) = ([call_set_uri r], Ret (Some todo)).
Proof.
  intros Hr Hn. cbn [scan]. rewrite Hr. unfold nonempty in Hn.
  apply negb_true_iff in Hn. simpl. now rewrite Hn.
Qed.

Lemma set_uri_recs_produce p all r todo :
  record_step p r = ([call_set_uri r], Ret r) -> nonempty r = true ->
  set_uri_recs p all (r :: todo) = ([call_set_uri r], Ret todo).
Proof.
  intros Hr Hn. unfold set_uri_recs. now rewrite (scan_produce p r todo Hr Hn).
Qed.

Lemma set_uri_recs_wrap p r all :
  record_step p r = ([call_set_uri r], Ret r) -> nonempty r = true ->
  set_uri_recs p (r :: all) [] =
    ((if do_loop p then [] else [core_exit]) ++ [call_set_uri r], Ret all).
Proof.
  intros Hr Hn. unfold set_uri_recs.
  change (scan p []) with (@ret (option (list (list ascii))) None).
  rewrite bind_ret_l.
  rewrite (scan_produce p r all Hr Hn). now destruct (do_loop p).
Qed.

(** The calls that take the cursor from a record to the end of the list. *)
Lemma replay_recs_run p all todo :
  (forall r, In r todo ->
     record_step p r = ([call_set_uri r], Ret r) /\ nonempty r = true) ->
  replay_recs p all todo (length todo) =
    (map (fun r => [call_set_uri r]) todo, Ret []).
Proof.
  induction todo as [|r todo IH]; intros H.
  - reflexivity.
  - cbn [length replay_recs].
    destruct (H r (or_introl eq_refl)) as [Hr Hn].
    rewrite (set_uri_recs_produce p all r todo Hr Hn).
    rewrite IH by (intros r' Hin; apply H; now right). reflexivity.
Qed.

(** The file of [m] NUL bytes is the log of [m] empty records. *)
Lemma log_of_empty m : log_of (repeat [] m) = repeat NUL m.
Proof.
  induction m as [|m IH]; [reflexivity|].
  cbn [repeat]. now rewrite log_of_cons, IH.
Qed.

Lemma scan_empty p m : result (scan p (repeat [] m)) = Ret None.
Proof.
  induction m as [|m IH]; [reflexivity|].
  cbn [repeat scan]. rewrite record_step_empty. simpl.
  destruct (scan p (repeat [] m)). simpl in *. now subst.
Qed.

Lemma set_uri_recs_empty p m :
  result (set_uri_recs p (repeat [] m) (repeat [] m)) = Panic.
Proof.
  unfold set_uri_recs. pose proof (scan_empty p m) as H.
  destruct (scan p (repeat [] m)) as [t r]. simpl in H. subst r. simpl.
  now destruct (do_loop p).
Qed.

(** * The replay sequence *)

Lemma well_formed_spec recs :
  well_formed recs = true -> recs <> [] /\ forallb nul_free recs = true.
Proof.
  unfold well_formed. intros H. apply andb_true_iff in H as [H1 H2].
  split; [|exact H2]. intros ->. discriminate.
Qed.

(** C4.  A log that holds nothing but empty records, that is a file of
    [m >= 1] NUL bytes and in particular the file that is a single NUL
    byte, is mapped by [init_wlog], and the first [set_uri] then ends in the
    panic "does not contain any valid URIs"; it does so within the turns the
    loop is given, whatever the configuration and whatever lies behind the
    mapping. *)
Theorem set_uri_only_empty_records_panics p m pad :
  0 < m ->
  exists g,
    init_wlog (Some (repeat NUL m)) pad = ret g /\
    result (set_uri p g) = Panic.
Proof.
  intros Hm. exists (at_record (repeat [] m) pad (repeat [] m)).
  assert (Hne : repeat (@nil ascii) m <> []) by (destruct m; [lia|discriminate]).
  split.
  - rewrite <- log_of_empty. now apply init_wlog_log_of.
  - rewrite (set_uri_at_record p (repeat [] m) pad) with (done := []);
      trivial.
    + pose proof (set_uri_recs_empty p m) as H.
      destruct (set_uri_recs p (repeat [] m) (repeat [] m)) as [t r].
      simpl in H. now subst r.
    + clear. induction m; [reflexivity|exact IHm].
Qed.

Lemma set_uri_only_empty_records_panics_witness :
  0 < 1 /\
  exists g,
    init_wlog (Some [NUL]) [] = ret g /\
    result (set_uri no_loop_plain g) = Panic.
Proof.
  split; [lia|].
  apply (set_uri_only_empty_records_panics no_loop_plain 1 []). lia.
Defined.

(** C1 (amended).  Looping disabled; a log of [n] non-empty NUL-terminated
    records; the records are taken as they are, that is
    [--embedded-http-headers] is off or no record holds a control-A.  Then
    the first [n] calls of [set_uri] make one host call each,
    [call_set_uri] with the records in file order, and the call after them
    makes exactly two: [core_exit], then [call_set_uri] with the first
    record again. *)
Theorem set_uri_no_loop_replays_records p recs pad :
  do_loop p = false ->
  plain p recs = true ->
  well_formed recs = true ->
  forallb nonempty recs = true ->
  exists g0 gn g',
    init_wlog (Some (log_of recs)) pad = ret g0 /\
    replay p g0 (length recs)
      = (map (fun r => [call_set_uri r]) recs, Ret gn) /\
    set_uri p gn = ([core_exit; call_set_uri (hd [] recs)], Ret g').
Proof.
  intros Hl Hp Hw Hne. apply well_formed_spec in Hw as [Hnil Hn].
  assert (Hall : forall r, In r recs ->
            record_step p r = ([call_set_uri r], Ret r) /\ nonempty r = true).
  { intros r Hin. split; [now apply (plain_In p recs)|].
    rewrite forallb_forall in Hne. now apply Hne. }
  exists (at_record recs pad recs), (at_record recs pad []).
  destruct recs as [|r1 recs']; [congruence|].
  exists (at_record (r1 :: recs') pad recs').
  split; [now apply init_wlog_log_of|]. split.
  - rewrite (replay_at_record p _ pad Hn Hnil _ [] _ eq_refl).
    now rewrite replay_recs_run.
  - rewrite (set_uri_at_record p _ pad Hn (r1 :: recs') []);
      [|now rewrite app_nil_r|assumption].
    destruct (Hall r1 (or_introl eq_refl)) as [Hr Hr'].
    rewrite (set_uri_recs_wrap p r1 recs' Hr Hr'), Hl. reflexivity.
Qed.

Lemma set_uri_no_loop_replays_records_witness :
  exists g0 gn g',
    init_wlog (Some (log_of [str "/a"; str "/b"])) [] = ret g0 /\
    replay no_loop_plain g0 2
      = ([[call_set_uri (str "/a")]; [call_set_uri (str "/b")]], Ret gn) /\
    set_uri no_loop_plain gn = ([core_exit; call_set_uri (str "/a")], Ret g').
Proof.
  apply (set_uri_no_loop_replays_records no_loop_plain
           [str "/a"; str "/b"] []); reflexivity.
Defined.

(** ** Empty records

    A run on a log and a run on the same log without its empty records
    make the same host calls, but for [call_set_uri] with no bytes. *)

Lemma vis_app t1 t2 : vis (t1 ++ t2) = vis t1 ++ vis t2.
Proof. apply filter_app. Qed.

Lemma sim_refl {A} (m : M A) : sim (fun a => a) m m.
Proof. split; [reflexivity|]. now destruct (snd m). Qed.

Lemma sim_bind {A B C D} (f : A -> B) (g : C -> D)
    (m1 : M A) (m2 : M B) (k1 : A -> M C) (k2 : B -> M D) :
  sim f m1 m2 -> (forall a, sim g (k1 a) (k2 (f a))) ->
  sim g (bind m1 k1) (bind m2 k2).
Proof.
  intros [Ht Hr] Hk. destruct m1 as [t1 r1], m2 as [t2 r2]. simpl in *.
  subst r2. destruct r1 as [a| |o|]; simpl; try (split; [assumption|reflexivity]).
  destruct (Hk a) as [Ht' Hr'].
  destruct (k1 a) as [t1' r1'], (k2 (f a)) as [t2' r2']. simpl in *.
  split; [|assumption]. cbn [fst]. now rewrite !vis_app, Ht, Ht'.
Qed.

Lemma scan_collapse p todo :
  sim (option_map collapse) (scan p todo) (scan p (collapse todo)).
Proof.
  induction todo as [|r todo IH].
  - split; reflexivity.
  - cbn [collapse filter]. destruct (nonempty r) eqn:Hr.
    + cbn [scan]. apply (sim_bind (fun a => a)); [apply sim_refl|].
      intros t. destruct (length t =? 0); [exact IH|split; reflexivity].
    + destruct r; [|discriminate]. cbn [scan]. rewrite record_step_empty.
      destruct IH as [Ht Hres]. fold (collapse todo) in *.
      destruct (scan p todo) as [t1 r1]. split; simpl; assumption.
Qed.

Lemma set_uri_recs_collapse p all todo :
  sim collapse (set_uri_recs p all todo)
      (set_uri_recs p (collapse all) (collapse todo)).
Proof.
  unfold set_uri_recs. apply (sim_bind (option_map collapse));
    [apply scan_collapse|].
  intros [rest|]; [split; reflexivity|]. cbn [option_map].
  apply (sim_bind (fun a => a)); [apply sim_refl|]. intros _.
  apply (sim_bind (option_map collapse)); [apply scan_collapse|].
  intros [rest|]; split; reflexivity.
Qed.

Lemma replay_recs_collapse p all k : forall todo,
  map vis (fst (replay_recs p all todo k))
    = map vis (fst (replay_recs p (collapse all) (collapse todo) k)) /\
  snd (replay_recs p (collapse all) (collapse todo) k)
    = map_outcome collapse (snd (replay_recs p all todo k)).
Proof.
  induction k as [|k IH]; intros todo; [split; reflexivity|].
  cbn [replay_recs]. destruct (set_uri_recs_collapse p all todo) as [Ht Hr].
  destruct (set_uri_recs p all todo) as [t1 r1],
           (set_uri_recs p (collapse all) (collapse todo)) as [t2 r2].
  simpl in Ht, Hr. subst r2.
  destruct r1 as [rest| |o|]; simpl; try (split; reflexivity).
  destruct (IH rest) as [IHt IHr].
  destruct (replay_recs p all rest k) as [ts1 x1],
           (replay_recs p (collapse all) (collapse rest) k) as [ts2 x2].
  simpl in *. split; [now rewrite Ht, IHt|assumption].
Qed.

Lemma record_step_last p r t tg :
  record_step p r = (t, Ret tg) -> exists t0, t = t0 ++ [call_set_uri tg].
Proof.
  unfold record_step. intros H.
  assert (K : forall r', (emit (call_set_uri r') ;;; ret r') = (t, Ret tg) ->
              exists t0, t = t0 ++ [call_set_uri tg]).
  { intros r' H'. inversion H'; subst. now exists []. }
  destruct (use_embedded_http_headers p); [|exact (K _ H)].
  destruct (cut r) as [[h tl]|]; [|exact (K _ H)].
  destruct (unescape_local (Some (h ++ [NUL]))) as [t1 [hdr| |o|]];
    simpl in H; try discriminate.
  inversion H; subst. exists (t1 ++ [call_append_request_header hdr]).
  now rewrite <- app_assoc.
Qed.

Lemma scan_last p todo : forall t rest,
  scan p todo = (t, Ret (Some rest)) -> completed t.
Proof.
  induction todo as [|r todo IH]; intros t rest H; [discriminate|].
  cbn [scan] in H.
  destruct (record_step p r) as [t1 [tg| |o|]] eqn:Er; simpl in H;
    try discriminate.
  destruct (length tg =? 0) eqn:El.
  - destruct (scan p todo) as [t2 r2] eqn:E. inversion H; subst.
    destruct (IH t2 rest eq_refl) as (t0 & u & -> & Hu).
    exists (t1 ++ t0), u. now rewrite app_assoc.
  - inversion H; subst. rewrite app_nil_r.
    apply record_step_last in Er as [t0 ->]. exists t0, tg.
    split; [reflexivity|]. unfold nonempty. now rewrite El.
Qed.

Lemma set_uri_recs_last p all todo t rest :
  set_uri_recs p all todo = (t, Ret rest) -> completed t.
Proof.
  unfold set_uri_recs. intros H.
  destruct (scan p todo) as [t1 [[r1|]| |o|]] eqn:E1; simpl in H;
    try discriminate.
  - inversion H; subst. rewrite app_nil_r. eapply scan_last; eauto.
  - match type of H with
    | context [bind (scan p all) ?k] =>
        destruct (bind (scan p all) k) as [t3 r3] eqn:E3
    end.
    assert (K : r3 = Ret rest -> completed t3).
    { intros ->.
      destruct (scan p all) as [t4 [[r4|]| |o|]] eqn:E4; simpl in E3;
        try discriminate.
      inversion E3; subst. rewrite app_nil_r. eapply scan_last; eauto. }
    destruct (do_loop p); simpl in H; inversion H; subst;
      destruct (K eq_refl) as (t0 & u & -> & Hu).
    + exists (t1 ++ t0), u. now rewrite app_assoc.
    + exists (t1 ++ core_exit :: t0), u. now rewrite <- !app_assoc.
Qed.

Lemma replay_recs_completed p all k : forall todo,
  Forall completed (fst (replay_recs p all todo k)).
Proof.
  induction k as [|k IH]; intros todo; [constructor|].
  cbn [replay_recs].
  destruct (set_uri_recs p all todo) as [t [rest| |o|]] eqn:E;
    try constructor.
  - specialize (IH rest). destruct (replay_recs p all rest k). simpl in *.
    constructor; [|assumption]. eapply set_uri_recs_last; eauto.
Qed.

Lemma hdrs_vis t : forall c c',
  req_extra_hdrs c = req_extra_hdrs c' ->
  req_extra_hdrs (fold_left call_apply (vis t) c)
    = req_extra_hdrs (fold_left call_apply t c').
Proof.
  induction t as [|e t IH]; intros c c' H; [exact H|].
  cbn [vis filter]. fold (vis t).
  destruct e as [|h|u|ch]; cbn [is_empty_target negb fold_left];
    try (apply IH; simpl; congruence).
  destruct u; cbn [negb fold_left]; apply IH; simpl; congruence.
Qed.

Lemma call_after_vis t : completed t -> call_after (vis t) = call_after t.
Proof.
  intros (t0 & u & -> & Hu). unfold call_after.
  rewrite vis_app, !fold_left_app.
  destruct u as [|a u]; [discriminate|]. simpl. f_equal.
  now apply hdrs_vis.
Qed.

Lemma map_call_after_vis ts :
  Forall completed ts -> map call_after (map vis ts) = map call_after ts.
Proof.
  induction 1 as [|t ts Ht _ IH]; [reflexivity|].
  simpl. now rewrite IH, call_after_vis.
Qed.

Lemma forallb_filter {A} (f g : A -> bool) l :
  forallb f l = true -> forallb f (filter g l) = true.
Proof.
  induction l as [|a l IH]; simpl; intros H; [reflexivity|].
  apply andb_true_iff in H as [Ha Hl].
  destruct (g a); simpl; [rewrite Ha|]; auto.
Qed.

Lemma collapse_nonempty recs :
  existsb nonempty recs = true -> collapse recs <> [] /\ recs <> [].
Proof.
  intros H. apply existsb_exists in H as (r & Hin & Hr). split.
  - intros E. assert (Hin' : In r (collapse recs))
      by (apply filter_In; now split).
    rewrite E in Hin'. exact Hin'.
  - intros ->. exact Hin.
Qed.

Lemma collapse_all_nonempty recs : forallb nonempty (collapse recs) = true.
Proof.
  apply forallb_forall. intros r Hin. now apply filter_In in Hin.
Qed.

(** The requests that went out in [k] calls are the same on both logs. *)
Lemma replay_collapse p recs pad pad' k :
  forallb nul_free recs = true ->
  existsb nonempty recs = true ->
  map call_after (fst (replay p (at_record recs pad recs) k))
    = map call_after
        (fst (replay p (at_record (collapse recs) pad' (collapse recs)) k)).
Proof.
  intros Hn He. destruct (collapse_nonempty recs He) as [Hc Hr].
  rewrite (replay_at_record p recs pad Hn Hr k [] recs eq_refl).
  rewrite (replay_at_record p (collapse recs) pad'
             (forallb_filter _ _ _ Hn) Hc k [] (collapse recs) eq_refl).
  cbn [fst]. destruct (replay_recs_collapse p recs k recs) as [Ht _].
  rewrite <- (map_call_after_vis _ (replay_recs_completed p recs k recs)).
  rewrite <- (map_call_after_vis _
                (replay_recs_completed p (collapse recs) k (collapse recs))).
  now rewrite Ht.
Qed.

Lemma handed_vis t : handed (vis t) = filter nonempty (handed t).
Proof.
  induction t as [|e t IH]; [reflexivity|].
  destruct e as [|h|u|ch]; cbn [vis filter is_empty_target negb];
    fold (vis t); cbn [handed flat_map app]; fold (handed t);
    fold (handed (vis t)); try exact IH.
  destruct u as [|c u]; cbn [negb]; fold (vis t).
  - cbn [filter nonempty length Nat.eqb negb]. exact IH.
  - cbn [handed flat_map app filter]. fold (handed (vis t)).
    unfold nonempty at 1. cbn [length Nat.eqb negb]. now rewrite IH.
Qed.

Lemma set_uri_recs_pass_empty p all rest :
  set_uri_recs p all ([] :: rest)
    = (emit (call_set_uri []) ;;; set_uri_recs p all rest).
Proof.
  unfold set_uri_recs. cbn [scan]. rewrite record_step_empty.
  destruct (scan p rest) as [t1 [[r1|]| |o|]]; try reflexivity.
  simpl. destruct (do_loop p); simpl;
    destruct (scan p all) as [t2 [[r2|]| |o|]]; reflexivity.
Qed.

(** C6 (amended).  Take a log whose records are NUL-terminated and not
    all empty, and the same log with its empty records left out (runs of
    consecutive NUL bytes collapsed).  Whatever the configuration and the
    number [k] of calls:
    - invocation by invocation, both runs make the same host calls but for
      [call_set_uri] with length 0, so the targets of at least one byte
      handed to [call_set_uri] are the same, in the same order;
    - every invocation that returns has handed over a non-empty target
      last, and the target each request goes out with is the same on both
      logs;
    - an empty record is not kept from the host: with the cursor on one,
      [set_uri] hands it to [call_set_uri] with length 0 and then goes on
      as it would from the record behind it. *)
Theorem collapse_keeps_nonempty_targets p recs pad pad' k :
  forallb nul_free recs = true ->
  existsb nonempty recs = true ->
  exists g g',
    init_wlog (Some (log_of recs)) pad = ret g /\
    init_wlog (Some (log_of (collapse recs))) pad' = ret g' /\
    map vis (fst (replay p g k)) = map vis (fst (replay p g' k)) /\
    map (fun t => filter nonempty (handed t)) (fst (replay p g k))
      = map (fun t => filter nonempty (handed t)) (fst (replay p g' k)) /\
    Forall completed (fst (replay p g k)) /\
    uris (replay p g k) = uris (replay p g' k) /\
    (forall done rest, recs = done ++ [] :: rest ->
       set_uri p (at_record recs pad ([] :: rest))
         = (emit (call_set_uri []) ;;; set_uri p (at_record recs pad rest))).
Proof.
  intros Hn He. destruct (collapse_nonempty recs He) as [Hc Hr].
  exists (at_record recs pad recs),
         (at_record (collapse recs) pad' (collapse recs)).
  split; [now apply init_wlog_log_of|].
  split; [now apply init_wlog_log_of|].
  assert (Hv : map vis (fst (replay p (at_record recs pad recs) k))
               = map vis (fst (replay p (at_record (collapse recs) pad'
                                            (collapse recs)) k))).
  { rewrite (replay_at_record p recs pad Hn Hr k [] recs eq_refl).
    rewrite (replay_at_record p (collapse recs) pad'
               (forallb_filter _ _ _ Hn) Hc k [] (collapse recs) eq_refl).
    apply replay_recs_collapse. }
  split; [exact Hv|]. split; [|split; [|split]].
  - rewrite <- !(map_ext _ _ handed_vis), <- !(map_map vis handed).
    now rewrite Hv.
  - rewrite (replay_at_record p recs pad Hn Hr k [] recs eq_refl).
    apply replay_recs_completed.
  - pose proof (replay_collapse p recs pad pad' k Hn He) as H.
    unfold uris. rewrite <- !(map_map call_after req_uri). now rewrite H.
  - intros done rest E.
    rewrite (set_uri_at_record p recs pad Hn done ([] :: rest) E Hr).
    rewrite (set_uri_at_record p recs pad Hn (done ++ [[]]) rest
               ltac:(now rewrite <- app_assoc) Hr).
    rewrite set_uri_recs_pass_empty. now rewrite bind_assoc.
Qed.

Lemma collapse_keeps_nonempty_targets_witness :
  exists g g',
    init_wlog (Some (log_of [[]; str "/a"; []; []; str "/b"; []])) [] = ret g /\
    init_wlog (Some (log_of (collapse [[]; str "/a"; []; []; str "/b"; []])))
              [] = ret g' /\
    map vis (fst (replay no_loop_embedded g 5))
      = map vis (fst (replay no_loop_embedded g' 5)) /\
    map (fun t => filter nonempty (handed t))
        (fst (replay no_loop_embedded g 5))
      = map (fun t => filter nonempty (handed t))
            (fst (replay no_loop_embedded g' 5)) /\
    Forall completed (fst (replay no_loop_embedded g 5)) /\
    uris (replay no_loop_embedded g 5) = uris (replay no_loop_embedded g' 5) /\
    (forall done rest,
       [[]; str "/a"; []; []; str "/b"; []] = done ++ [] :: rest ->
       set_uri no_loop_embedded
         (at_record [[]; str "/a"; []; []; str "/b"; []] [] ([] :: rest))
         = (emit (call_set_uri []) ;;;
            set_uri no_loop_embedded
              (at_record [[]; str "/a"; []; []; str "/b"; []] [] rest))).
Proof.
  apply (collapse_keeps_nonempty_targets no_loop_embedded
           [[]; str "/a"; []; []; str "/b"; []] [] [] 5); reflexivity.
Defined.

(** C6 as stated fails there: the two runs do not hand the same targets to
    the host.  On the log with its runs of terminators [call_set_uri] gets
    an empty target for every empty record passed, before the target the
    request goes out with; on the collapsed log it gets none. *)
Lemma collapse_keeps_nonempty_targets_counterexample :
  forallb nul_free log_with_empty_records = true /\
  existsb nonempty log_with_empty_records = true /\
  collapse log_with_empty_records = [str "/a"; str "/b"] /\
  init_wlog (Some (log_of log_with_empty_records)) []
    = ret (at_record log_with_empty_records [] log_with_empty_records) /\
  init_wlog (Some (log_of (collapse log_with_empty_records))) []
    = ret (at_record (collapse log_with_empty_records) []
             (collapse log_with_empty_records)) /\
  map handed (fst (replay no_loop_plain
             (at_record log_with_empty_records [] log_with_empty_records) 2))
    = [[[]; str "/a"]; [[]; []; str "/b"]] /\
  map handed (fst (replay no_loop_plain
             (at_record (collapse log_with_empty_records) []
                (collapse log_with_empty_records)) 2))
    = [[str "/a"]; [str "/b"]] /\
  concat (map handed (fst (replay no_loop_plain
             (at_record log_with_empty_records [] log_with_empty_records) 2)))
  <> concat (map handed (fst (replay no_loop_plain
             (at_record (collapse log_with_empty_records) []
                (collapse log_with_empty_records)) 2))).
Proof.
  repeat split; try reflexivity. vm_compute. discriminate.
Qed.

(** ** Going round the list *)

Lemma plain_productive p r :
  use_embedded_http_headers p = false \/ soh_free r = true ->
  nonempty r = true -> productive p r = true /\ target p r = r.
Proof.
  intros H Hn. unfold productive, target.
  rewrite (record_step_plain p r H). simpl. now destruct r.
Qed.

Lemma uri_of_snoc t0 u : req_uri (call_after (t0 ++ [call_set_uri u])) = u.
Proof. unfold call_after. now rewrite fold_left_app. Qed.

Lemma scan_productive p r todo :
  productive p r = true ->
  exists t0,
    scan p (r :: todo) = (t0 ++ [call_set_uri (target p r)], Ret (Some todo)).
Proof.
  unfold productive, target. intros H. cbn [scan].
  destruct (record_step p r) as [t [tg| |o|]] eqn:E; simpl in H;
    try discriminate.
  destruct tg as [|c tg]; [discriminate|].
  apply record_step_last in E as [t0 ->]. exists t0. simpl.
  now rewrite app_nil_r.
Qed.

Lemma set_uri_recs_productive p all r todo :
  productive p r = true ->
  exists t0,
    set_uri_recs p all (r :: todo)
      = (t0 ++ [call_set_uri (target p r)], Ret todo).
Proof.
  intros H. destruct (scan_productive p r todo H) as [t0 E].
  exists t0. unfold set_uri_recs. rewrite E. simpl. now rewrite app_nil_r.
Qed.

Lemma set_uri_recs_wrap_productive p r all :
  productive p r = true ->
  exists t0,
    set_uri_recs p (r :: all) []
      = (t0 ++ [call_set_uri (target p r)], Ret all).
Proof.
  intros H. destruct (scan_productive p r all H) as [t0 E].
  exists ((if do_loop p then [] else [core_exit]) ++ t0).
  unfold set_uri_recs.
  change (scan p []) with (@ret (option (list (list ascii))) None).
  rewrite bind_ret_l, E. destruct (do_loop p); simpl;
    now rewrite app_nil_r.
Qed.

(** On a log whose records all yield a target, the [j]-th call from a
    cursor that has [done] behind it goes out with the target of record
    [(|done| + j) mod n]. *)
Lemma replay_recs_cycle p all :
  forallb (productive p) all = true -> all <> [] ->
  forall k done todo, all = done ++ todo ->
  exists ts rest,
    replay_recs p all todo k = (ts, Ret rest) /\
    length ts = k /\
    forall j, j < k ->
      nth_error (map (fun t => req_uri (call_after t)) ts) j
        = option_map (target p)
            (nth_error all ((length done + j) mod length all)).
Proof.
  intros Hall Hnil. rewrite forallb_forall in Hall.
  induction k as [|k IH]; intros done todo E.
  - exists [], todo. repeat split. intros j Hj. lia.
  - cbn [replay_recs]. destruct todo as [|r todo].
    + rewrite app_nil_r in E. subst done.
      destruct all as [|r1 all']; [congruence|].
      destruct (set_uri_recs_wrap_productive p r1 all'
                  (Hall r1 (or_introl eq_refl))) as [t0 ->].
      destruct (IH [r1] all' eq_refl) as (ts & rest & -> & Hlen & Hnth).
      eexists _, rest. split; [reflexivity|]. split; [simpl; lia|].
      intros [|j] Hj; cbn [map nth_error].
      * rewrite uri_of_snoc, Nat.add_0_r, Nat.Div0.mod_same.
        reflexivity.
      * rewrite Hnth by lia. do 2 f_equal.
        replace (length (r1 :: all') + S j)
          with (length [r1] + j + 1 * length (r1 :: all')) by (simpl; lia).
        now rewrite Nat.Div0.mod_add.
    + assert (Hin : In r all) by (rewrite E; apply in_or_app; right; now left).
      destruct (set_uri_recs_productive p all r todo (Hall r Hin)) as [t0 ->].
      destruct (IH (done ++ [r]) todo) as (ts & rest & -> & Hlen & Hnth).
      { now rewrite <- app_assoc. }
      eexists _, rest. split; [reflexivity|]. split; [simpl; lia|].
      intros [|j] Hj; cbn [map nth_error].
      * rewrite uri_of_snoc, Nat.add_0_r, Nat.mod_small
          by (rewrite E, length_app; simpl; lia).
        rewrite E, nth_error_app2, Nat.sub_diag by lia. reflexivity.
      * rewrite Hnth by lia. do 2 f_equal. rewrite length_app. cbn [length].
        f_equal. lia.
Qed.

Lemma uris_replay_cycle p recs pad m j :
  forallb (productive p) (collapse recs) = true ->
  well_formed recs = true ->
  0 < length (collapse recs) -> j < m ->
  nth_error (uris (replay p (at_record recs pad recs) m)) j
    = option_map (target p)
        (nth_error (collapse recs) (j mod length (collapse recs))).
Proof.
  intros Hp Hw Hn Hj. apply well_formed_spec in Hw as [_ Hnf].
  assert (He : existsb nonempty recs = true).
  { destruct (existsb nonempty recs) eqn:E; [reflexivity|].
    assert (Hc : collapse recs = []); [|rewrite Hc in Hn; inversion Hn].
    clear - E. induction recs as [|r recs IH]; [reflexivity|].
    simpl in *. apply orb_false_iff in E as [-> E]. now apply IH. }
  destruct (collapse_nonempty recs He) as [Hc _].
  unfold uris. rewrite <- (map_map call_after req_uri).
  rewrite (replay_collapse p recs pad pad m Hnf He).
  rewrite (replay_at_record p (collapse recs) pad
             (forallb_filter _ _ _ Hnf) Hc m [] (collapse recs) eq_refl).
  cbn [fst].
  destruct (replay_recs_cycle p (collapse recs) Hp Hc m [] (collapse recs)
              eq_refl) as (ts & rest & -> & _ & Hnth).
  cbn [fst]. rewrite map_map. now rewrite (Hnth j Hj).
Qed.

(** C5 (amended).  Looping enabled; a log of NUL-terminated records, [n]
    of them non-empty, each of which yields a target that is not empty (as
    every non-empty record does without [--embedded-http-headers]).  Then
    every call returns, and the target of call [k] (counting from 0) is the
    target of call [k + n]. *)
Theorem replay_is_periodic p recs pad k :
  do_loop p = true ->
  well_formed recs = true ->
  0 < length (collapse recs) ->
  forallb (productive p) (collapse recs) = true ->
  exists g0 u,
    init_wlog (Some (log_of recs)) pad = ret g0 /\
    nth_error (uris (replay p g0 (k + length (collapse recs) + 1))) k = Some u /\
    nth_error (uris (replay p g0 (k + length (collapse recs) + 1)))
              (k + length (collapse recs)) = Some u.
Proof.
  intros _ Hw Hn Hp. set (n := length (collapse recs)) in *.
  destruct (nth_error (collapse recs) (k mod n)) as [r|] eqn:Eu.
  2:{ apply nth_error_None in Eu.
      pose proof (Nat.mod_upper_bound k n). fold n in Eu. lia. }
  exists (at_record recs pad recs), (target p r).
  split; [apply init_wlog_log_of; now apply well_formed_spec|].
  rewrite !uris_replay_cycle by (trivial; lia). fold n.
  replace (k + n) with (k + 1 * n) by lia.
  rewrite Nat.Div0.mod_add, Eu. now split.
Qed.

Lemma replay_is_periodic_witness :
  exists g0 u,
    init_wlog (Some (log_of [str "/a"; []; str "H" ++ [SOH] ++ str "/b"])) []
      = ret g0 /\
    nth_error (uris (replay loop_embedded g0 (3 + 2 + 1))) 3 = Some u /\
    nth_error (uris (replay loop_embedded g0 (3 + 2 + 1))) (3 + 2) = Some u.
Proof.
  apply (replay_is_periodic loop_embedded
           [str "/a"; []; str "H" ++ [SOH] ++ str "/b"] [] 3);
    [reflexivity|reflexivity|simpl; lia|reflexivity].
Defined.

(** C5 as stated fails there: three non-empty records, yet the first
    holds no target and is skipped, so the targets come round every two
    calls and call 0 differs from call 3. *)
Lemma replay_is_periodic_counterexample :
  well_formed log_with_bare_header = true /\
  length (collapse log_with_bare_header) = 3 /\
  init_wlog (Some (log_of log_with_bare_header)) []
    = ret (at_record log_with_bare_header [] log_with_bare_header) /\
  uris (replay loop_embedded
          (at_record log_with_bare_header [] log_with_bare_header) 4)
    = [str "/a"; str "/b"; str "/a"; str "/b"] /\
  nth_error (uris (replay loop_embedded
              (at_record log_with_bare_header [] log_with_bare_header) 4)) 0
  <> nth_error (uris (replay loop_embedded
              (at_record log_with_bare_header [] log_with_bare_header) 4)) 3.
Proof.
  repeat split; try reflexivity. vm_compute. discriminate.
Qed.

(** C1 as stated fails there: the one call that the one record accounts
    for sets the target to [/u], not to the record. *)
Lemma set_uri_no_loop_replays_records_counterexample :
  well_formed log_with_header = true /\
  forallb nonempty log_with_header = true /\
  init_wlog (Some (log_of log_with_header)) []
    = ret (at_record log_with_header [] log_with_header) /\
  fst (replay no_loop_embedded
         (at_record log_with_header [] log_with_header) 1)
    = [[call_append_request_header (str "H"); call_set_uri (str "/u")]] /\
  uris (replay no_loop_embedded
          (at_record log_with_header [] log_with_header) 1)
  <> log_with_header.
Proof.
  repeat split; try reflexivity. vm_compute. discriminate.
Qed.

(** ** Reads stay inside the file *)

Lemma record_step_fault p r o :
  fault (result (record_step p r)) = Some o -> o = header_string.
Proof.
  unfold record_step. intros H.
  destruct (use_embedded_http_headers p); [|discriminate].
  destruct (cut r) as [[h t]|]; [|discriminate].
  bind_fault H as hdr;
    [|bind_fault H as u; [discriminate|]; bind_fault H as u'; discriminate].
  unfold unescape_local in H. eapply unescape_loop_fault; eauto.
Qed.

Lemma scan_fault p todo o :
  fault (result (scan p todo)) = Some o -> o = header_string.
Proof.
  induction todo as [|r todo IH]; intros H; [discriminate|].
  cbn [scan] in H. bind_fault H as t; [eapply record_step_fault; eauto|].
  destruct (length t =? 0); [auto|discriminate].
Qed.

Lemma set_uri_recs_fault p all todo o :
  fault (result (set_uri_recs p all todo)) = Some o -> o = header_string.
Proof.
  unfold set_uri_recs. intros H.
  bind_fault H as x; [eapply scan_fault; eauto|].
  destruct x as [rest|]; [discriminate|].
  bind_fault H as u; [destruct (do_loop p); discriminate|].
  bind_fault H as y; [eapply scan_fault; eauto|].
  destruct y; discriminate.
Qed.

Lemma replay_recs_fault p all k : forall todo o,
  fault (snd (replay_recs p all todo k)) = Some o -> o = header_string.
Proof.
  induction k as [|k IH]; intros todo o H; [discriminate|].
  cbn [replay_recs] in H.
  destruct (set_uri_recs p all todo) as [t [rest| |o'|]] eqn:E;
    try discriminate.
  - specialize (IH rest o). destruct (replay_recs p all rest k). auto.
  - simpl in H. inversion H; subst. apply (set_uri_recs_fault p all todo).
    now rewrite E.
Qed.

(** What lies behind the file is of no account: the same host calls are
    made and the cursor moves alike. *)
Lemma set_uri_ignores_pad p recs pad pad' done todo :
  well_formed recs = true -> recs = done ++ todo ->
  trace (set_uri p (at_record recs pad todo))
    = trace (set_uri p (at_record recs pad' todo)) /\
  map_outcome fcurrent (result (set_uri p (at_record recs pad todo)))
    = map_outcome fcurrent (result (set_uri p (at_record recs pad' todo))).
Proof.
  intros Hw E. apply well_formed_spec in Hw as [Hnil Hn].
  rewrite !(set_uri_at_record p recs _ Hn done todo E Hnil).
  destruct (set_uri_recs p recs todo) as [t [rest| |o|]]; now split.
Qed.

(** C7 (amended).  On a log in the documented format, every record with
    its NUL, [fbase <= fcurrent <= fend] holds after [init_wlog] and after
    every call of [set_uri] that returns, whatever the configuration; and no
    call reads outside the file: the theorem holds for every [pad], the empty
    one too, for which any read at or behind [fend] would end the run in
    [Undefined log_buffer]. *)
Theorem cursor_stays_in_file p recs pad k :
  well_formed recs = true ->
  exists g0,
    init_wlog (Some (log_of recs)) pad = ret g0 /\
    match snd (replay p g0 k) with
    | Ret g => fbase <= fcurrent g /\ fcurrent g <= fend g
    | Undefined o => o <> log_buffer
    | _ => True
    end.
Proof.
  intros Hw. apply well_formed_spec in Hw as [Hnil Hn].
  exists (at_record recs pad recs). split; [now apply init_wlog_log_of|].
  rewrite (replay_at_record p recs pad Hn Hnil k [] recs eq_refl). cbn [snd].
  pose proof (replay_recs_fault p recs k recs) as Hf.
  destruct (snd (replay_recs p recs recs k)) as [rest| |o|]; simpl; trivial.
  - unfold fbase. lia.
  - rewrite (Hf o eq_refl). discriminate.
Qed.

Lemma cursor_stays_in_file_witness :
  exists g0,
    init_wlog (Some (log_of [str "/a"; []; str "/b"])) [] = ret g0 /\
    match snd (replay no_loop_embedded g0 4) with
    | Ret g => fbase <= fcurrent g /\ fcurrent g <= fend g
    | Undefined o => o <> log_buffer
    | _ => True
    end.
Proof.
  apply (cursor_stays_in_file no_loop_embedded [str "/a"; []; str "/b"] [] 4).
  reflexivity.
Defined.

(** C7 as stated fails on the file [ab], whose one record has no NUL.
    With a zero byte behind the mapping [strlen] reads it, at offset
    [fend], and the cursor ends up one byte behind [fend]; with nothing
    readable there the call is undefined. *)
Lemma cursor_stays_in_file_counterexample :
  init_wlog (Some (str "ab")) [NUL]
    = ret {| fmem := str "ab" ++ [NUL]; fend := 2; fcurrent := 0 |} /\
  set_uri no_loop_plain {| fmem := str "ab" ++ [NUL]; fend := 2; fcurrent := 0 |}
    = ([call_set_uri (str "ab")],
       Ret {| fmem := str "ab" ++ [NUL]; fend := 2; fcurrent := 3 |}) /\
  ~ (3 <= 2) /\
  init_wlog (Some (str "ab")) []
    = ret {| fmem := str "ab"; fend := 2; fcurrent := 0 |} /\
  set_uri no_loop_plain {| fmem := str "ab"; fend := 2; fcurrent := 0 |}
    = ([], Undefined log_buffer).
Proof.
  repeat split; try reflexivity. lia.
Qed.

(** * Splitting a record *)

(** C2 (amended).  A record [h ++ SOH :: t] in which [h] holds no
    control-A, under the cursor [uri].  With [--embedded-http-headers] the
    string handed to [unescape_local] is [h], the bytes before the first
    control-A; the target is [t], every byte behind that first control-A up
    to the end of the record, later control-A bytes included; its length is
    the length of the record less the length of [h] less one.  Without the
    option nothing is cut off: no header is appended and the target is the
    whole record. *)
Theorem embedded_headers_split p g uri h t rest :
  at_ptr g uri = (h ++ SOH :: t) ++ NUL :: rest ->
  nul_free (h ++ SOH :: t) = true ->
  soh_free h = true ->
  strlen (at_ptr g uri) = Some (length (h ++ SOH :: t)) /\
  (use_embedded_http_headers p = true ->
   embedded_headers p g uri (length (h ++ SOH :: t)) =
     (hdr <- unescape_local (Some (h ++ [NUL])) ;;
      emit (call_append_request_header hdr) ;;;
      ret (uri + length h + 1, length (h ++ SOH :: t) - length h - 1)) /\
   firstn (length (h ++ SOH :: t) - length h - 1)
          (at_ptr g (uri + length h + 1)) = t) /\
  (use_embedded_http_headers p = false ->
   embedded_headers p g uri (length (h ++ SOH :: t))
     = ret (uri, length (h ++ SOH :: t)) /\
   firstn (length (h ++ SOH :: t)) (at_ptr g uri) = h ++ SOH :: t).
Proof.
  intros Hm Hn Hs.
  assert (Hlen : length (h ++ SOH :: t) - length h - 1 = length t)
    by (rewrite length_app; simpl; lia).
  split; [rewrite Hm; now apply strlen_record|]. split.
  - intros He. rewrite Hlen. split.
    + apply (embedded_headers_cut p g uri h t rest); trivial.
      * rewrite Hm, <- app_assoc. reflexivity.
      * rewrite nul_free_app in Hn. now apply andb_true_iff in Hn.
    + replace (uri + length h + 1) with (uri + length (h ++ [SOH]))
        by (rewrite length_app; simpl; lia).
      rewrite at_ptr_add, Hm.
      replace ((h ++ SOH :: t) ++ NUL :: rest)
        with ((h ++ [SOH]) ++ t ++ NUL :: rest)
        by (rewrite <- !app_assoc; reflexivity).
      now rewrite skipn_prefix, firstn_prefix.
  - intros He. split.
    + apply (embedded_headers_plain p g uri _ (NUL :: rest) Hm). now left.
    + rewrite Hm. apply firstn_prefix.
Qed.

Lemma embedded_headers_split_witness :
  strlen (at_ptr get_header_log 0) = Some 22 /\
  (use_embedded_http_headers no_loop_embedded = true ->
   embedded_headers no_loop_embedded get_header_log 0 22 =
     (hdr <- unescape_local (Some (str "GET-header" ++ [NUL])) ;;
      emit (call_append_request_header hdr) ;;;
      ret (0 + 10 + 1, 22 - 10 - 1)) /\
   firstn (22 - 10 - 1) (at_ptr get_header_log (0 + 10 + 1))
     = str "/index.html") /\
  (use_embedded_http_headers no_loop_embedded = false ->
   embedded_headers no_loop_embedded get_header_log 0 22 = ret (0, 22) /\
   firstn 22 (at_ptr get_header_log 0)
     = str "GET-header" ++ SOH :: str "/index.html").
Proof.
  apply (embedded_headers_split no_loop_embedded get_header_log 0
           (str "GET-header") (str "/index.html") []); reflexivity.
Defined.

(** The example of the specification, through [set_uri]: with the option
    the header [GET-header] and the target [/index.html], without it the
    whole record as the target. *)
Lemma set_uri_get_header :
  trace (set_uri no_loop_embedded get_header_log)
    = [call_append_request_header (str "GET-header");
       call_set_uri (str "/index.html")] /\
  trace (set_uri no_loop_plain get_header_log)
    = [call_set_uri (str "GET-header" ++ SOH :: str "/index.html")].
Proof. split; reflexivity. Qed.

(** C2 as stated fails on the record [A^AB^AC]: the second control-A
    neither ends the header block nor is it dropped, it is the second byte
    of the target. *)
Lemma embedded_headers_split_counterexample :
  trace (set_uri no_loop_embedded
           (at_record [str "A" ++ SOH :: str "B" ++ SOH :: str "C"] []
                      [str "A" ++ SOH :: str "B" ++ SOH :: str "C"]))
    = [call_append_request_header (str "A");
       call_set_uri (str "B" ++ SOH :: str "C")] /\
  In SOH (str "B" ++ SOH :: str "C").
Proof. split; [reflexivity|]. simpl. tauto. Qed.

(** * Headers of a skipped record *)

Lemma fold_warnings w : forall c,
  forallb is_warning w = true -> fold_left call_apply w c = c.
Proof.
  induction w as [|e w IH]; intros c H; [reflexivity|].
  simpl in H. apply andb_true_iff in H as [He Hw].
  destruct e; try discriminate. simpl. now apply IH.
Qed.

Lemma hdrs_fold t : forall c,
  req_extra_hdrs (fold_left call_apply t c)
    = req_extra_hdrs c ++ req_extra_hdrs (fold_left call_apply t new_call).
Proof.
  induction t as [|e t IH]; intros c; [simpl; now rewrite app_nil_r|].
  cbn [fold_left]. rewrite (IH (call_apply c e)), (IH (call_apply new_call e)).
  destruct e; simpl; rewrite ?app_nil_r; trivial.
  now rewrite <- app_assoc.
Qed.

Lemma uri_fold t c :
  completed t ->
  req_uri (fold_left call_apply t c) = req_uri (call_after t).
Proof.
  intros (t0 & u & -> & _). unfold call_after.
  now rewrite !fold_left_app.
Qed.

(** A record that is a header block and its control-A, no target. *)
Lemma record_step_bare_header p h w hdr :
  use_embedded_http_headers p = true ->
  soh_free h = true ->
  unescape_local (Some (h ++ [NUL])) = (w, Ret hdr) ->
  record_step p (h ++ [SOH])
    = (w ++ [call_append_request_header hdr; call_set_uri []], Ret []).
Proof.
  intros He Hs Hu. unfold record_step.
  now rewrite He, (cut_app h [] Hs), Hu.
Qed.

(** C10.  [--embedded-http-headers] is on and the cursor is on a record
    [h ++ SOH]: a header block, which decodes to [hdr], its control-A and no
    target.  Suppose a call of [set_uri] that started on the next record
    would return after the host calls [t].  Then the call that starts on
    the header record makes the decoder's diagnostics, then
    [call_append_request_header hdr], then [call_set_uri] with no bytes,
    then the calls [t], and returns in the same state: the request goes out
    with the target of the later record and with [hdr] in front of that
    record's own headers. *)
Theorem skipped_record_keeps_headers p recs pad done h todo w hdr t g' :
  use_embedded_http_headers p = true ->
  well_formed recs = true ->
  recs = done ++ (h ++ [SOH]) :: todo ->
  soh_free h = true ->
  unescape_local (Some (h ++ [NUL])) = (w, Ret hdr) ->
  set_uri p (at_record recs pad todo) = (t, Ret g') ->
  set_uri p (at_record recs pad ((h ++ [SOH]) :: todo))
    = (w ++ call_append_request_header hdr :: call_set_uri [] :: t, Ret g') /\
  req_uri (call_after
             (w ++ call_append_request_header hdr :: call_set_uri [] :: t))
    = req_uri (call_after t) /\
  req_extra_hdrs (call_after
             (w ++ call_append_request_header hdr :: call_set_uri [] :: t))
    = hdr :: req_extra_hdrs (call_after t).
Proof.
  intros He Hw E Hs Hu Ht. apply well_formed_spec in Hw as [Hnil Hn].
  rewrite (set_uri_at_record p recs pad Hn (done ++ [h ++ [SOH]]) todo) in Ht;
    [|now rewrite <- app_assoc|assumption].
  destruct (set_uri_recs p recs todo) as [t1 r1] eqn:Et.
  destruct r1 as [rest| |o|]; simpl in Ht; try discriminate.
  rewrite app_nil_r in Ht. inversion Ht; subst t1 g'. clear Ht.
  pose proof (set_uri_recs_last _ _ _ _ _ Et) as Hc.
  split; [|split].
  - rewrite (set_uri_at_record p recs pad Hn done _ E Hnil).
    unfold set_uri_recs in *. cbn [scan].
    rewrite (record_step_bare_header p h w hdr He Hs Hu).
    cbn [bind length Nat.eqb]. destruct (scan p todo) as [t2 r2].
    destruct r2 as [[rest2|]| |o|]; simpl in Et |- *; try discriminate.
    + inversion Et; subst. now rewrite !app_nil_r, <- !app_assoc.
    + destruct (do_loop p); simpl in Et |- *;
        destruct (scan p recs) as [t3 [[rest3|]| |o|]]; simpl in Et |- *;
        try discriminate; inversion Et; subst;
        now rewrite ?app_nil_r, <- ?app_assoc.
  - pose proof (unescape_loop_warnings (S (length (h ++ [NUL]))) (h ++ [NUL]))
      as Hwarn.
    unfold unescape_local in Hu. rewrite Hu in Hwarn. simpl in Hwarn.
    unfold call_after at 1. rewrite fold_left_app, (fold_warnings w _ Hwarn).
    cbn [fold_left]. now apply uri_fold.
  - pose proof (unescape_loop_warnings (S (length (h ++ [NUL]))) (h ++ [NUL]))
      as Hwarn.
    unfold unescape_local in Hu. rewrite Hu in Hwarn. simpl in Hwarn.
    unfold call_after at 1. rewrite fold_left_app, (fold_warnings w _ Hwarn).
    cbn [fold_left]. rewrite hdrs_fold. reflexivity.
Qed.

Lemma skipped_record_keeps_headers_witness :
  set_uri no_loop_embedded
    (at_record [str "H: 1" ++ [SOH]; []; str "/u"] []
               [str "H: 1" ++ [SOH]; []; str "/u"])
    = ([] ++ call_append_request_header (str "H: 1") :: call_set_uri []
          :: [call_set_uri []; call_set_uri (str "/u")],
       Ret (at_record [str "H: 1" ++ [SOH]; []; str "/u"] [] [])) /\
  req_uri (call_after
             ([] ++ call_append_request_header (str "H: 1") :: call_set_uri []
                 :: [call_set_uri []; call_set_uri (str "/u")]))
    = req_uri (call_after [call_set_uri []; call_set_uri (str "/u")]) /\
  req_extra_hdrs (call_after
             ([] ++ call_append_request_header (str "H: 1") :: call_set_uri []
                 :: [call_set_uri []; call_set_uri (str "/u")]))
    = str "H: 1"
      :: req_extra_hdrs (call_after [call_set_uri []; call_set_uri (str "/u")]).
Proof.
  apply (skipped_record_keeps_headers no_loop_embedded
           [str "H: 1" ++ [SOH]; []; str "/u"] [] [] (str "H: 1")
           [[]; str "/u"] [] (str "H: 1")
           [call_set_uri []; call_set_uri (str "/u")]
           (at_record [str "H: 1" ++ [SOH]; []; str "/u"] [] []));
    reflexivity.
Defined.

(** * The escape decoder *)

Lemma oct_digits_run ds rest : forall acc,
  forallb is_octal ds = true -> ends_octal rest = true ->
  oct_digits (ds ++ rest) acc
    = Some (fold_left (fun a c => 8 * a + digit_val c)%N ds acc, rest).
Proof.
  induction ds as [|d ds IH]; intros acc Hd Hr.
  - destruct rest as [|c rest]; [discriminate|]. simpl in *.
    apply negb_true_iff in Hr. now rewrite Hr.
  - simpl in Hd. apply andb_true_iff in Hd as [Hd Hds].
    simpl. rewrite Hd. now apply IH.
Qed.

Lemma is_octal_escape d :
  is_octal d = true ->
  (d =? backslash)%char = false /\ (d =? "a")%char = false /\
  (d =? "r")%char = false /\ (d =? "n")%char = false /\ is_digit d = true.
Proof.
  intros H. repeat split;
    try (destruct (Ascii.eqb_spec d backslash) as [->|]; [discriminate|reflexivity]);
    try (destruct (Ascii.eqb_spec d "a") as [->|]; [discriminate|reflexivity]);
    try (destruct (Ascii.eqb_spec d "r") as [->|]; [discriminate|reflexivity]);
    try (destruct (Ascii.eqb_spec d "n") as [->|]; [discriminate|reflexivity]).
  unfold is_octal, is_digit in *. apply andb_true_iff in H as [H1 H2].
  apply Nat.leb_le in H1, H2. apply andb_true_iff. split; apply Nat.leb_le; lia.
Qed.

Lemma char_of_long_code v : N_of_ascii (char_of_long v) = (v mod 256)%N.
Proof.
  unfold char_of_long. apply N_ascii_embedding.
  now apply N.mod_upper_bound.
Qed.

(** One turn of the loop on a backslash and a run of octal digits. *)
Lemma octal_escape_turn fuel ds rest :
  nonempty ds = true ->
  forallb is_octal ds = true ->
  ends_octal rest = true ->
  unescape_loop (S fuel) (backslash :: ds ++ rest)
    = (dst <- unescape_loop fuel rest ;;
       ret (char_of_long (N.min (octal_value ds) LONG_MAX) :: dst)).
Proof.
  intros Hne Hd Hr. destruct ds as [|d ds]; [discriminate|].
  pose proof Hd as Hd'. simpl in Hd'. apply andb_true_iff in Hd' as [Hd1 _].
  destruct (is_octal_escape d Hd1) as (E1 & E2 & E3 & E4 & E5).
  rewrite unescape_loop_S. cbn [app].
  change (backslash =? NUL)%char with false.
  change (backslash =? backslash)%char with true. cbv iota.
  rewrite E1, E2, E3, E4, E5.
  unfold strtol8. change (d :: ds ++ rest) with ((d :: ds) ++ rest).
  rewrite (oct_digits_run (d :: ds) rest 0%N Hd Hr). reflexivity.
Qed.

(** C8 (amended).  A backslash followed by a non-empty run of octal
    digits ['0'..'7'] that ends before [rest]: one turn of the loop takes
    the backslash and the whole run, stores exactly one byte and goes on at
    [rest]; the escape alone decodes to that one byte.  With [v] the base 8
    value of the run, the byte is the low eight bits of [v], [v] being held
    to [LONG_MAX] by [strtol]; it is [v] itself when [v <= 255]. *)
Theorem octal_escape fuel ds rest :
  nonempty ds = true ->
  forallb is_octal ds = true ->
  ends_octal rest = true ->
  unescape_loop (S fuel) (backslash :: ds ++ rest)
    = (dst <- unescape_loop fuel rest ;;
       ret (char_of_long (N.min (octal_value ds) LONG_MAX) :: dst)) /\
  unescape_local (Some (backslash :: ds ++ [NUL]))
    = ([], Ret [char_of_long (N.min (octal_value ds) LONG_MAX)]) /\
  N_of_ascii (char_of_long (N.min (octal_value ds) LONG_MAX))
    = (N.min (octal_value ds) LONG_MAX mod 256)%N /\
  ((octal_value ds < 256)%N ->
   N_of_ascii (char_of_long (N.min (octal_value ds) LONG_MAX))
     = octal_value ds).
Proof.
  intros Hne Hd Hr. split; [now apply octal_escape_turn|]. split; [|split].
  - unfold unescape_local.
    rewrite (octal_escape_turn _ ds [NUL] Hne Hd eq_refl).
    destruct ds as [|d ds']; [discriminate|]. reflexivity.
  - apply char_of_long_code.
  - intros Hv. rewrite char_of_long_code.
    assert (octal_value ds <= LONG_MAX)%N by (unfold LONG_MAX; simpl; lia).
    rewrite N.min_l by assumption. now apply N.mod_small.
Qed.

Lemma octal_escape_witness :
  unescape_loop (S 2) (backslash :: str "101" ++ [NUL])
    = (dst <- unescape_loop 2 [NUL] ;;
       ret (char_of_long (N.min (octal_value (str "101")) LONG_MAX) :: dst)) /\
  unescape_local (Some (backslash :: str "101" ++ [NUL]))
    = ([], Ret [char_of_long (N.min (octal_value (str "101")) LONG_MAX)]) /\
  N_of_ascii (char_of_long (N.min (octal_value (str "101")) LONG_MAX))
    = (N.min (octal_value (str "101")) LONG_MAX mod 256)%N /\
  ((octal_value (str "101") < 256)%N ->
   N_of_ascii (char_of_long (N.min (octal_value (str "101")) LONG_MAX))
     = octal_value (str "101")).
Proof.
  apply (octal_escape 2 (str "101") [NUL]); reflexivity.
Defined.

(** C8 as stated fails twice.  [\8]: ['8'] is no octal digit, [strtol]
    converts nothing and leaves the pointer on it, so a zero byte is stored
    and then ['8'] itself, two bytes.  [\400]: the value is 256, the byte
    stored is 0. *)
Lemma octal_escape_counterexample :
  unescape_local (Some (cstr "\8")) = ([], Ret [NUL; "8"%char]) /\
  octal_value (str "400") = 256%N /\
  unescape_local (Some (cstr "\400")) = ([], Ret [NUL]).
Proof. repeat split. Qed.

(** ** A backslash before the terminator *)

(** [strtol] on a terminated string stops inside it. *)
Lemma oct_digits_terminated s : forall acc,
  nul_free s = true ->
  exists v s3,
    (forall rest, oct_digits (s ++ NUL :: rest) acc = Some (v, s3 ++ NUL :: rest)) /\
    length s3 <= length s /\ nul_free s3 = true /\ dangling s3 = dangling s.
Proof.
  induction s as [|c s IH]; intros acc Hn.
  - exists acc, []. repeat split; trivial.
  - pose proof Hn as Hn'. simpl in Hn'. apply andb_true_iff in Hn' as [_ Hs].
    destruct (is_octal c) eqn:Ec.
    + destruct (IH (8 * acc + digit_val c)%N Hs) as (v & s3 & H1 & H2 & H3 & H4).
      exists v, s3. repeat split; trivial.
      * intros rest. simpl. rewrite Ec. apply H1.
      * simpl. lia.
      * cbn [dangling]. apply is_octal_escape in Ec as [-> _]. exact H4.
    + exists acc, (c :: s). repeat split; trivial.
      intros rest. simpl. now rewrite Ec.
Qed.

(** One turn on a terminated string [s]: either [s] is a lone backslash,
    the terminator is taken for the escaped character and [cp] ends up
    behind it; or the turn ends inside the string, on a shorter string that
    dangles if and only if [s] does. *)
Lemma one_turn_terminated c s1 :
  nul_free (c :: s1) = true ->
  (c :: s1 = [backslash] /\
   forall rest,
     one_turn ((c :: s1) ++ NUL :: rest) = store [unknown_escape NUL] [NUL] rest)
  \/
  exists w bytes s',
    (forall rest,
       one_turn ((c :: s1) ++ NUL :: rest) = store w bytes (s' ++ NUL :: rest)) /\
    length s' < length (c :: s1) /\ nul_free s' = true /\
    dangling s' = dangling (c :: s1).
Proof.
  intros Hn. simpl in Hn. apply andb_true_iff in Hn as [Hc Hn1].
  apply negb_true_iff in Hc. cbn [dangling app one_turn]. rewrite Hc.
  destruct (Ascii.eqb_spec c backslash) as [->|Hb].
  2:{ right. exists [], [c], s1. repeat split; trivial. simpl. lia. }
  destruct s1 as [|c2 s2]; [left; now split|]. right.
  simpl in Hn1. apply andb_true_iff in Hn1 as [Hc2 Hn2]. cbn [app].
  assert (K : forall w bytes,
            exists w' bytes' s',
              (forall rest : list ascii,
                 store w bytes (s2 ++ NUL :: rest)
                   = store w' bytes' (s' ++ NUL :: rest)) /\
              length s' < length (backslash :: c2 :: s2) /\
              nul_free s' = true /\ dangling s' = dangling s2).
  { intros w bytes. exists w, bytes, s2. repeat split; trivial. simpl. lia. }
  destruct (c2 =? backslash)%char eqn:Eb; [apply K|].
  destruct (c2 =? "a")%char; [apply K|].
  destruct (c2 =? "r")%char; [apply K|].
  destruct (c2 =? "n")%char; [apply K|].
  destruct (is_digit c2); [|apply K].
  destruct (oct_digits_terminated (c2 :: s2) 0%N) as (v & s3 & H1 & H2 & H3 & H4);
    [simpl; now rewrite Hc2, Hn2|].
  exists [], [char_of_long (N.min v LONG_MAX)], s3. repeat split; trivial.
  - intros rest. unfold strtol8.
    change (c2 :: s2 ++ NUL :: rest) with ((c2 :: s2) ++ NUL :: rest).
    now rewrite H1.
  - simpl in *. lia.
  - rewrite H4. cbn [dangling]. now rewrite Eb.
Qed.

Lemma unescape_loop_dangling n : forall s,
  length s < n -> nul_free s = true ->
  (dangling s = true ->
   result (unescape_loop n (s ++ [NUL])) = Undefined header_string) /\
  (dangling s = false ->
   exists w d, forall rest, unescape_loop n (s ++ NUL :: rest) = (w, Ret d)).
Proof.
  induction n as [|n IH]; intros s Hlen Hn; [lia|].
  destruct s as [|c s1].
  - split; [discriminate|]. intros _. exists [], []. reflexivity.
  - destruct (one_turn_terminated c s1 Hn) as
      [[E T]|(w & bytes & s' & T & Hl & Hn' & Hd)].
    + split; [|rewrite E; discriminate]. intros _.
      rewrite unescape_loop_turn, T, result_after.
      destruct n as [|n]; [rewrite E in Hlen; simpl in Hlen; lia|].
      reflexivity.
    + destruct (IH s' ltac:(lia) Hn') as [D1 D2]. rewrite <- Hd. split.
      * intros H. specialize (D1 H).
        rewrite unescape_loop_turn, T, result_after.
        destruct (unescape_loop n (s' ++ [NUL])) as [t r]. simpl in *.
        now subst r.
      * intros H. destruct (D2 H) as (w' & d & Hwd).
        exists (w ++ w'), (bytes ++ d). intros rest.
        rewrite unescape_loop_turn, T, Hwd. simpl. now rewrite app_nil_r.
Qed.

(** A string that does not end behind a backslash is decoded, and nothing
    behind its terminator is looked at. *)
Lemma unescape_local_returns s :
  nul_free s = true -> dangling s = false ->
  exists w d, forall rest,
    unescape_local (Some (s ++ NUL :: rest)) = (w, Ret d).
Proof.
  intros Hn Hd.
  destruct (unescape_loop_dangling (S (length s)) s (Nat.lt_succ_diag_r _) Hn)
    as [_ H].
  destruct (H Hd) as (w & d & Hwd). exists w, d. intros rest.
  unfold unescape_local. rewrite <- (Hwd rest).
  apply unescape_loop_mono.
  - rewrite length_app. simpl. lia.
  - rewrite (Hwd rest). discriminate.
Qed.

(** An unknown escape is no error: a diagnostic, and the character goes
    through as it is. *)
Lemma unknown_escape_passes fuel ch cp :
  (ch =? backslash)%char = false -> (ch =? "a")%char = false ->
  (ch =? "r")%char = false -> (ch =? "n")%char = false ->
  is_digit ch = false ->
  unescape_loop (S fuel) (backslash :: ch :: cp)
    = (emit (unknown_escape ch) ;;;
       dst <- unescape_loop fuel cp ;; ret (ch :: dst)).
Proof.
  intros E1 E2 E3 E4 E5. rewrite unescape_loop_S.
  change (backslash =? NUL)%char with false.
  change (backslash =? backslash)%char with true. cbv iota.
  now rewrite E1, E2, E3, E4, E5.
Qed.

(** The escapes of the table, each as a whole header string. *)
Lemma unescape_local_examples :
  unescape_local (Some (cstr "\\")) = ([], Ret [backslash]) /\
  unescape_local (Some (cstr "\a")) = ([], Ret [LF]) /\
  unescape_local (Some (cstr "\r")) = ([], Ret [CR]) /\
  unescape_local (Some (cstr "\n")) = ([], Ret [CR; LF]) /\
  unescape_local (Some (cstr "\101")) = ([], Ret ["A"%char]) /\
  unescape_local (Some (cstr "\z")) = ([unknown_escape "z"], Ret ["z"%char]).
Proof. repeat split. Qed.

(** C9: the code does not do this.  When the string ends behind a
    backslash, the terminating NUL is taken for the escaped character
    (diagnostic, a zero byte stored) and the loop then reads the byte behind
    the terminator: undefined when the string ends its object, as the
    [malloc]ed copy made by [set_uri] does. *)
Theorem lone_backslash_reads_past_terminator s :
  nul_free s = true -> dangling s = true ->
  result (unescape_local (Some (s ++ [NUL]))) = Undefined header_string.
Proof.
  intros Hn Hd. unfold unescape_local.
  apply unescape_loop_dangling; trivial.
  rewrite length_app. simpl. lia.
Qed.

Lemma lone_backslash_reads_past_terminator_witness :
  result (unescape_local (Some (str "X: y\" ++ [NUL])))
    = Undefined header_string.
Proof.
  apply (lone_backslash_reads_past_terminator (str "X: y\")); reflexivity.
Defined.

(** With readable bytes behind the terminator the decoder goes on into
    them.  The five bytes it stores are more than the two of the [strdup]
    copy: in the code the stores have left the copy by then, which the
    list of bytes stored does not show. *)
Lemma lone_backslash_decodes_next_object :
  unescape_local (Some (cstr "\" ++ cstr "next"))
    = ([unknown_escape NUL], Ret (NUL :: str "next")).
Proof. reflexivity. Qed.

(** C3: the code does not do this for every string.  The escapes of the
    table decode as claimed ([unescape_local_examples]), an unknown escape
    is passed through with a diagnostic ([unknown_escape_passes]) and
    every string that does not end behind a backslash is decoded
    ([unescape_local_returns]); the header [X: y\] is not: the call of
    [set_uri] on the record [X: y\^A/u] is undefined, no request is set
    up. *)
Theorem set_uri_undefined_on_lone_backslash :
  set_uri no_loop_embedded
    (at_record [str "X: y\" ++ SOH :: str "/u"] []
               [str "X: y\" ++ SOH :: str "/u"])
    = ([unknown_escape NUL], Undefined header_string).
Proof. reflexivity. Qed.

(** * Further properties of the code *)

(** ** The monad, once more *)

Lemma bind_ret_inv {A B} (m : M A) (f : A -> M B) t b :
  bind m f = (t, Ret b) ->
  exists a t1 t2, m = (t1, Ret a) /\ f a = (t2, Ret b) /\ t = t1 ++ t2.
Proof.
  destruct m as [t1 [a| |o|]]; simpl; try discriminate.
  destruct (f a) as [t2 r] eqn:E. intros H. inversion H; subst.
  now exists a, t1, t2.
Qed.

Lemma bind_forallb {A B} (q : event -> bool) (m : M A) (f : A -> M B) :
  forallb q (trace m) = true ->
  (forall a, forallb q (trace (f a)) = true) ->
  forallb q (trace (bind m f)) = true.
Proof.
  intros Hm Hf. destruct m as [t [a| |o|]]; simpl in *; trivial.
  specialize (Hf a). destruct (f a) as [t' r]. simpl in *.
  rewrite forallb_app, Hm, Hf. reflexivity.
Qed.

Lemma bind_mono {A B} (m m' : M A) (f f' : A -> M B) :
  m' = m -> (forall a, result m = Ret a -> f' a = f a) ->
  bind m' f' = bind m f.
Proof.
  intros -> H. destruct m as [t [a| |o|]]; simpl; try reflexivity.
  now rewrite (H a eq_refl).
Qed.

Lemma result_bind_ret {A B} (m : M A) (f : A -> M B) a :
  result m = Ret a -> result (bind m f) = result (f a).
Proof.
  destruct m as [t r]. simpl. intros ->. simpl. now destruct (f a).
Qed.

(** ** The loops end *)

Lemma set_uri_loop_mono n : forall m p g did_wrap,
  n <= m -> result (set_uri_loop n p g did_wrap) <> OutOfFuel ->
  set_uri_loop m p g did_wrap = set_uri_loop n p g did_wrap.
Proof.
  induction n as [|n IH]; intros m p g dw Hle Hr; [now contradiction Hr|].
  destruct m as [|m]; [lia|]. apply le_S_n in Hle.
  cbn [set_uri_loop] in Hr |- *.
  apply bind_mono; [reflexivity|]. intros [g1 dw1] E1.
  rewrite (result_bind_ret _ _ _ E1) in Hr.
  apply bind_mono; [reflexivity|]. intros len E2.
  rewrite (result_bind_ret _ _ _ E2) in Hr.
  apply bind_mono; [reflexivity|]. intros [uri len0] E3.
  rewrite (result_bind_ret _ _ _ E3) in Hr.
  apply bind_mono; [reflexivity|]. intros [] E4.
  rewrite (result_bind_ret _ _ _ E4) in Hr.
  destruct (len0 =? 0); [|reflexivity]. now apply IH.
Qed.

(** X1.  The [do ... while (len == 0)] loop of [set_uri] ends on every
    state and under every configuration, whatever the memory holds, within
    [2 * fend + 2] turns: it returns, panics or makes an undefined read
    within that many, and more turns change neither the host calls nor the
    result. *)
Theorem set_uri_ends_within_bound p g fuel :
  2 * fend g + 2 <= fuel ->
  result (set_uri p g) <> OutOfFuel /\
  set_uri_loop fuel p g false = set_uri p g.
Proof.
  intros Hf.
  assert (H : result (set_uri p g) <> OutOfFuel)
    by (apply set_uri_loop_total; lia).
  split; [exact H|]. now apply set_uri_loop_mono.
Qed.

Lemma set_uri_ends_within_bound_witness :
  result (set_uri no_loop_embedded get_header_log) <> OutOfFuel /\
  set_uri_loop 100 no_loop_embedded get_header_log false
    = set_uri no_loop_embedded get_header_log.
Proof.
  apply (set_uri_ends_within_bound no_loop_embedded get_header_log 100).
  simpl. lia.
Defined.

(** X2.  The [for] loop of [unescape_local] ends on every argument within
    one turn per byte of the object it reads: it returns or reads outside
    the object within that many, and more turns change nothing. *)
Theorem unescape_local_ends_within_bound s fuel :
  length s < fuel ->
  result (unescape_local (Some s)) <> OutOfFuel /\
  unescape_loop fuel s = unescape_local (Some s).
Proof.
  intros Hf. split; [apply unescape_local_total|].
  unfold unescape_local. apply unescape_loop_fuel; lia.
Qed.

Lemma unescape_local_ends_within_bound_witness :
  result (unescape_local (Some (cstr "a\n\101\z"))) <> OutOfFuel /\
  unescape_loop 50 (cstr "a\n\101\z") = unescape_local (Some (cstr "a\n\101\z")).
Proof.
  apply (unescape_local_ends_within_bound (cstr "a\n\101\z") 50).
  simpl. lia.
Defined.

(** ** The decoder *)

Lemma one_turn_stores cp w bytes cp' :
  one_turn cp = store w bytes cp' -> length bytes + length cp' <= length cp.
Proof.
  unfold one_turn. destruct cp as [|ch cp1]; [discriminate|].
  destruct (ch =? NUL)%char; [discriminate|].
  destruct (ch =? backslash)%char.
  2:{ intros H. inversion H; subst. simpl. lia. }
  destruct cp1 as [|ch2 cp2]; [discriminate|].
  repeat match goal with
         | |- context [if ?b then _ else _] =>
             destruct b; [intros H; inversion H; subst; simpl; lia|]
         end.
  destruct (is_digit ch2); [|intros H; inversion H; subst; simpl; lia].
  destruct (strtol8 (ch2 :: cp2)) as [[v cp3]|] eqn:E; [|discriminate].
  intros H. inversion H; subst. apply strtol8_length in E. simpl in *. lia.
Qed.

Lemma unescape_loop_length n : forall cp w d,
  unescape_loop n cp = (w, Ret d) -> length d < length cp.
Proof.
  induction n as [|n IH]; intros cp w d H; [discriminate|].
  rewrite unescape_loop_turn in H.
  destruct (one_turn cp) as [| |w0 bytes cp'] eqn:E.
  - inversion H; subst. destruct cp; [discriminate|simpl; lia].
  - discriminate.
  - apply bind_ret_inv in H as ([] & t1 & t2 & _ & H & _).
    apply bind_ret_inv in H as (dst & t3 & t4 & Hl & Hd & _).
    inversion Hd; subst. apply IH in Hl. apply one_turn_stores in E.
    rewrite length_app. lia.
Qed.

(** X3.  Decoding never makes a string longer, and the stores stay in
    the copy.  On a string [s] that does not end behind a backslash,
    whatever follows its terminator in memory, [unescape_local] returns and
    the number of bytes it stored, [*len], is at most [strlen (str)]: the
    stores go to [dst[0]] ... [dst[*len - 1]], inside the
    [strlen (str) + 1] bytes that [strdup] gave the copy.  (A string that
    does end behind a backslash has no such bound: the loop runs on behind
    the terminator.) *)
Theorem unescape_local_never_grows s rest :
  nul_free s = true -> dangling s = false ->
  exists w d,
    unescape_local (Some (s ++ NUL :: rest)) = (w, Ret d) /\
    length d <= length s.
Proof.
  intros Hn Hd.
  destruct (unescape_local_returns s Hn Hd) as (w & d & H).
  exists w, d. split; [apply H|].
  specialize (H []). unfold unescape_local in H.
  apply unescape_loop_length in H. rewrite length_app in H. simpl in H. lia.
Qed.

Lemma unescape_local_never_grows_witness :
  exists w d,
    unescape_local (Some (str "\n\101\z" ++ NUL :: str "behind")) = (w, Ret d) /\
    length d <= length (str "\n\101\z").
Proof.
  apply (unescape_local_never_grows (str "\n\101\z") (str "behind"));
    reflexivity.
Defined.

Lemma unescape_loop_plain s : forall n rest,
  length s < n -> nul_free s = true -> backslash_free s = true ->
  unescape_loop n (s ++ NUL :: rest) = ([], Ret s).
Proof.
  induction s as [|c s IH]; intros n rest Hn Hz Hb;
    (destruct n as [|n]; [inversion Hn|]).
  - reflexivity.
  - simpl in Hz, Hb, Hn.
    apply andb_true_iff in Hz as [Hc Hz]. apply negb_true_iff in Hc.
    apply andb_true_iff in Hb as [Hc' Hb]. apply negb_true_iff in Hc'.
    cbn [app]. rewrite unescape_loop_S, Hc, Hc'.
    rewrite (IH n rest) by (trivial; lia). reflexivity.
Qed.

(** X4.  A header without backslash is taken literally: [unescape_local]
    returns the string itself, byte for byte, makes no diagnostic and looks
    at nothing behind the terminator. *)
Theorem unescape_local_without_backslash s rest :
  nul_free s = true -> backslash_free s = true ->
  unescape_local (Some (s ++ NUL :: rest)) = ([], Ret s).
Proof.
  intros Hz Hb. unfold unescape_local. apply unescape_loop_plain; trivial.
  rewrite length_app. simpl. lia.
Qed.

Lemma unescape_local_without_backslash_witness :
  unescape_local (Some (str "Accept: text/html" ++ NUL :: str "junk"))
    = ([], Ret (str "Accept: text/html")).
Proof.
  apply (unescape_local_without_backslash (str "Accept: text/html")
           (str "junk")); reflexivity.
Defined.

(** X5.  The decoder is safe exactly on the strings that do not end
    behind a backslash.  For a string [s] (no NUL inside): [s] does not
    dangle if and only if [unescape_local] returns, with one and the same
    diagnostics and bytes whatever follows the terminator in memory, the
    empty rest included. *)
Theorem unescape_local_returns_iff s :
  nul_free s = true ->
  (dangling s = false <->
   exists w d, forall rest,
     unescape_local (Some (s ++ NUL :: rest)) = (w, Ret d)).
Proof.
  intros Hn. split.
  - now apply unescape_local_returns.
  - intros (w & d & H). destruct (dangling s) eqn:Hd; [|reflexivity].
    specialize (H []). unfold unescape_local in H.
    destruct (unescape_loop_dangling (S (length (s ++ [NUL]))) s) as [D _];
      [rewrite length_app; simpl; lia|assumption|].
    rewrite H in D. specialize (D Hd). discriminate.
Qed.

Lemma unescape_local_returns_iff_witness :
  dangling (str "a\\b\n") = false <->
  exists w d, forall rest,
    unescape_local (Some (str "a\\b\n" ++ NUL :: rest)) = (w, Ret d).
Proof.
  apply (unescape_local_returns_iff (str "a\\b\n")). reflexivity.
Defined.

(** ** Cutting the headers off, on any memory *)

Lemma strlen_length s : forall len, strlen s = Some len -> len < length s.
Proof.
  induction s as [|c s IH]; intros len H; [discriminate|].
  simpl in H. destruct (c =? NUL)%char.
  - inversion H; subst. simpl. lia.
  - destruct (strlen s) as [l|]; [|discriminate]. inversion H; subst.
    specialize (IH l eq_refl). simpl. lia.
Qed.

Lemma memchr_in_string s c : forall len,
  strlen s = Some len -> memchr s c len <> None.
Proof.
  induction s as [|x s IH]; intros len H; [discriminate|].
  simpl in H. destruct (x =? NUL)%char.
  - inversion H; subst. discriminate.
  - destruct (strlen s) as [l|] eqn:E; [|discriminate]. inversion H; subst.
    simpl. destruct (x =? c)%char; [discriminate|].
    specialize (IH l eq_refl). destruct (memchr s c l); [discriminate|congruence].
Qed.

Lemma unescape_loop_no_panic n : forall s, result (unescape_loop n s) <> Panic.
Proof.
  induction n as [|n IH]; intros s; [discriminate|].
  rewrite unescape_loop_turn.
  destruct (one_turn s) as [| |w bytes cp']; try discriminate.
  rewrite result_after. specialize (IH cp').
  destruct (unescape_loop n cp') as [t [d| |o|]]; simpl in *; congruence.
Qed.

Lemma embedded_headers_tail p g uri len :
  strlen (at_ptr g uri) = Some len ->
  match result (embedded_headers p g uri len) with
  | Ret (uri', len') => uri <= uri' /\ uri' + len' = uri + len
  | Undefined o => o = header_string
  | Panic => False
  | OutOfFuel => False
  end.
Proof.
  intros Hl. unfold embedded_headers.
  destruct (use_embedded_http_headers p); [|simpl; lia].
  pose proof (memchr_in_string _ SOH _ Hl) as Hm.
  destruct (memchr (at_ptr g uri) SOH len) as [[i|]|] eqn:Em;
    [|simpl; lia|congruence].
  cbn [lift_read]. rewrite bind_ret_l.
  destruct (header_loop_memchr _ _ _ 0 Hl Em) as [Hh Hi].
  rewrite Hh, bind_ret_l. cbn [Nat.add].
  set (erh_2 := firstn i (at_ptr g uri) ++ [NUL]).
  pose proof (unescape_local_total (Some erh_2)) as Ht.
  pose proof (unescape_loop_no_panic (S (length erh_2)) erh_2) as Hp.
  pose proof (unescape_loop_fault (S (length erh_2)) erh_2) as Hf.
  unfold unescape_local in *.
  destruct (unescape_loop (S (length erh_2)) erh_2) as [t [hdr| |o|]];
    simpl in *; try congruence.
  - lia.
  - now apply Hf.
Qed.

(** X6.  Lines 191-238 on any memory and any record: when [len] is the
    [strlen] of what [uri] points to, the target they cut starts inside
    the record and ends where the record ends, so [len] never goes below
    zero; [erh_2] is never NULL when it is passed to [unescape_local]; no
    byte outside the record is read.  The one mishap left is the decoder
    reading outside the header copy. *)
Theorem embedded_headers_stays_in_record p g uri len :
  strlen (at_ptr g uri) = Some len ->
  match result (embedded_headers p g uri len) with
  | Ret (uri', len') => uri <= uri' /\ uri' + len' = uri + len
  | Undefined o => o = header_string
  | Panic => False
  | OutOfFuel => False
  end.
Proof. apply embedded_headers_tail. Qed.

Lemma embedded_headers_stays_in_record_witness :
  match result (embedded_headers no_loop_embedded get_header_log 0 22) with
  | Ret (uri', len') => 0 <= uri' /\ uri' + len' = 0 + 22
  | Undefined o => o = header_string
  | Panic => False
  | OutOfFuel => False
  end.
Proof.
  apply (embedded_headers_stays_in_record no_loop_embedded get_header_log 0 22).
  reflexivity.
Defined.

(** ** What a call that returns has done *)

Lemma strlen_segment s : forall len k len0,
  strlen s = Some len -> k + len0 = len ->
  length (firstn len0 (skipn k s)) = len0 /\
  nul_free (firstn len0 (skipn k s)) = true.
Proof.
  induction s as [|c s IH]; intros len k len0 Hl Hk; [discriminate|].
  simpl in Hl. destruct (c =? NUL)%char eqn:Ec.
  - injection Hl as Hlen. assert (Ek : k = 0) by lia.
    assert (E0 : len0 = 0) by lia. rewrite Ek, E0. now split.
  - destruct (strlen s) as [l|] eqn:E; [|discriminate]. injection Hl as Hlen.
    destruct k as [|k].
    + assert (E0 : len0 = S l) by lia. rewrite E0. clear E0 Hk.
      cbn [skipn firstn length nul_free forallb].
      destruct (IH l 0 l eq_refl eq_refl) as [H1 H2]. simpl in H1, H2.
      rewrite H1. fold (nul_free (firstn l s)). now rewrite H2, Ec.
    + cbn [skipn]. apply (IH l k len0 eq_refl). lia.
Qed.

Lemma set_uri_loop_last fuel : forall p g did_wrap t g',
  set_uri_loop fuel p g did_wrap = (t, Ret g') ->
  exists t0 u,
    t = t0 ++ [call_set_uri u] /\ nonempty u = true /\ nul_free u = true.
Proof.
  induction fuel as [|fuel IH]; intros p g dw t g' H; [discriminate|].
  cbn [set_uri_loop] in H.
  apply bind_ret_inv in H as ([g1 dw1] & t1 & t2 & _ & H & ->).
  apply bind_ret_inv in H as (len & t3 & t4 & Hs & H & ->).
  apply bind_ret_inv in H as ([uri len0] & t5 & t6 & He & H & ->).
  apply bind_ret_inv in H as ([] & t7 & t8 & Hc & H & ->).
  inversion Hc; subst t7. clear Hc.
  destruct (len0 =? 0) eqn:E0.
  - apply IH in H as (t0 & u & -> & Hu & Hz).
    exists (t1 ++ t3 ++ t5 ++
            [call_set_uri (firstn len0 (at_ptr g1 uri))] ++ t0), u.
    split; [|now split]. now rewrite <- !app_assoc.
  - inversion H; subst t8 g'. clear H.
    exists (t1 ++ t3 ++ t5), (firstn len0 (at_ptr g1 uri)).
    split; [now rewrite <- !app_assoc|].
    destruct (strlen (at_ptr g1 (fcurrent g1))) as [l|] eqn:El;
      [|discriminate]. inversion Hs; subst l.
    pose proof (embedded_headers_tail p g1 (fcurrent g1) len El) as Hb.
    rewrite He in Hb. simpl in Hb. destruct Hb as [Hle Hsum].
    replace uri with (fcurrent g1 + (uri - fcurrent g1)) by lia.
    rewrite at_ptr_add.
    destruct (strlen_segment _ len (uri - fcurrent g1) len0 El) as [H1 H2];
      [lia|].
    split; [|exact H2]. unfold nonempty. now rewrite H1, E0.
Qed.

(** X7.  A call of [set_uri] that returns, from whatever state and on
    whatever memory, has made [call_set_uri] its last host call, with a URI
    of at least one byte that holds no NUL: the host never gets the call
    object back with an empty target. *)
Theorem set_uri_returns_with_uri p g t g' :
  set_uri p g = (t, Ret g') ->
  exists t0 u,
    t = t0 ++ [call_set_uri u] /\ nonempty u = true /\ nul_free u = true.
Proof. apply set_uri_loop_last. Qed.

Lemma set_uri_returns_with_uri_witness :
  exists t0 u,
    [call_append_request_header (str "GET-header");
     call_set_uri (str "/index.html")] = t0 ++ [call_set_uri u] /\
    nonempty u = true /\ nul_free u = true.
Proof.
  apply (set_uri_returns_with_uri no_loop_embedded get_header_log
           [call_append_request_header (str "GET-header");
            call_set_uri (str "/index.html")]
           (at_record [str "GET-header" ++ SOH :: str "/index.html"] [] [])).
  reflexivity.
Defined.

(** ** The host calls of one invocation, on any memory *)

Lemma set_uri_loop_turn fuel p g did_wrap :
  set_uri_loop (S fuel) p g did_wrap =
    bind (wrap_around p g did_wrap)
      (fun gd : globals * bool => let (g1, dw1) := gd in turn_body fuel p g1 dw1).
Proof. reflexivity. Qed.

Lemma count_exit_app t1 t2 :
  count_exit (t1 ++ t2) = count_exit t1 + count_exit t2.
Proof. unfold count_exit. now rewrite filter_app, length_app. Qed.

Lemma bind_count {A B} (m : M A) (f : A -> M B) c :
  count_exit (trace m) = 0 ->
  (forall a, count_exit (trace (f a)) <= c) ->
  count_exit (trace (bind m f)) <= c.
Proof.
  intros Hm Hf. destruct m as [t [a| |o|]]; simpl in *; try lia.
  specialize (Hf a). destruct (f a) as [t' r]. simpl in *.
  rewrite count_exit_app. lia.
Qed.

Lemma header_loop_trace ptr : forall k, trace (header_loop ptr k) = [].
Proof.
  induction ptr as [|c ptr IH]; intros k; [reflexivity|]. simpl.
  destruct (c =? NUL)%char; [reflexivity|].
  destruct (c =? SOH)%char; [reflexivity|]. apply IH.
Qed.

Lemma lift_read_trace {A} (r : option A) : trace (lift_read r) = [].
Proof. now destruct r. Qed.

Lemma forallb_weaken {A} (q q' : A -> bool) l :
  (forall a, q a = true -> q' a = true) ->
  forallb q l = true -> forallb q' l = true.
Proof.
  intros H. induction l as [|a l IH]; simpl; [trivial|].
  intros Hl. apply andb_true_iff in Hl as [Ha Hl]. now rewrite (H a Ha), IH.
Qed.

Lemma embedded_headers_events p g uri len :
  forallb is_header_event (trace (embedded_headers p g uri len)) = true.
Proof.
  unfold embedded_headers.
  destruct (use_embedded_http_headers p); [|reflexivity].
  apply bind_forallb; [now rewrite lift_read_trace|].
  intros [i|]; [|reflexivity].
  apply bind_forallb; [now rewrite header_loop_trace|]. intros [n found].
  apply bind_forallb; [|reflexivity].
  destruct found; [|reflexivity]. unfold unescape_local.
  eapply forallb_weaken; [|apply unescape_loop_warnings].
  now intros [].
Qed.

Lemma count_header_events t :
  forallb is_header_event t = true -> count_exit t = 0.
Proof.
  induction t as [|e t IH]; [reflexivity|]. simpl.
  intros H. apply andb_true_iff in H as [He Ht].
  unfold count_exit in *. simpl. destruct e; try discriminate; now apply IH.
Qed.

Lemma turn_body_count fuel p did_wrap c :
  (forall g, count_exit (trace (set_uri_loop fuel p g did_wrap)) <= c) ->
  forall g, count_exit (trace (turn_body fuel p g did_wrap)) <= c.
Proof.
  intros H g. unfold turn_body.
  apply bind_count; [now rewrite lift_read_trace|]. intros len.
  apply bind_count; [apply count_header_events, embedded_headers_events|].
  intros [uri len0].
  apply bind_count; [reflexivity|]. intros _.
  destruct (len0 =? 0); [apply H|unfold count_exit; simpl; lia].
Qed.

Lemma set_uri_loop_count fuel p : forall g (did_wrap : bool),
  count_exit (trace (set_uri_loop fuel p g did_wrap))
    <= (if did_wrap || do_loop p then 0 else 1).
Proof.
  induction fuel as [|fuel IH]; intros g dw; [unfold count_exit; simpl; lia|].
  rewrite set_uri_loop_turn. unfold wrap_around.
  destruct (fend g <=? fcurrent g).
  - destruct dw; [unfold count_exit; simpl; lia|]. cbn [orb].
    pose proof (turn_body_count fuel p true 0 (fun g' => IH g' true)
                  (set_fcurrent g fbase)) as Hb.
    destruct (do_loop p).
    + rewrite !bind_ret_l. exact Hb.
    + rewrite bind_assoc, bind_emit, bind_ret_l. cbn [trace fst].
      change (core_exit :: ?t) with ([core_exit] ++ t).
      unfold trace in Hb. rewrite count_exit_app.
      change (count_exit [core_exit]) with 1. lia.
  - rewrite bind_ret_l. apply turn_body_count. intros g'. apply IH.
Qed.

(** X8.  One call of [set_uri], from whatever state and on whatever
    memory, calls [core_exit] at most once, and not at all when looping is
    enabled. *)
Theorem set_uri_calls_core_exit_once p g :
  count_exit (trace (set_uri p g)) <= (if do_loop p then 0 else 1).
Proof. apply (set_uri_loop_count _ p g false). Qed.

Lemma embedded_headers_off p g uri len :
  use_embedded_http_headers p = false ->
  embedded_headers p g uri len = ret (uri, len).
Proof. intros H. unfold embedded_headers. now rewrite H. Qed.

Lemma set_uri_loop_plain_events fuel p :
  use_embedded_http_headers p = false ->
  forall g did_wrap,
    forallb is_uri_or_exit (trace (set_uri_loop fuel p g did_wrap)) = true.
Proof.
  intros He. induction fuel as [|fuel IH]; intros g dw; [reflexivity|].
  cbn [set_uri_loop]. apply bind_forallb.
  - unfold wrap_around. destruct (fend g <=? fcurrent g); [|reflexivity].
    destruct dw; [reflexivity|]. now destruct (do_loop p).
  - intros [g1 dw1]. apply bind_forallb; [now rewrite lift_read_trace|].
    intros len. rewrite (embedded_headers_off p g1 _ len He), bind_ret_l.
    apply bind_forallb; [reflexivity|]. intros _.
    destruct (len =? 0); [apply IH|reflexivity].
Qed.

Lemma set_uri_loop_plain_fault fuel p :
  use_embedded_http_headers p = false ->
  forall g did_wrap o,
    fault (result (set_uri_loop fuel p g did_wrap)) = Some o -> o = log_buffer.
Proof.
  intros He. induction fuel as [|fuel IH]; intros g dw o H; [discriminate|].
  cbn [set_uri_loop] in H. bind_fault H as gd.
  - unfold wrap_around in H. destruct (fend g <=? fcurrent g); [|discriminate].
    destruct dw; [discriminate|]. destruct (do_loop p); discriminate.
  - destruct gd as [g1 dw1]. bind_fault H as len.
    + destruct (strlen (at_ptr g1 (fcurrent g1))); [discriminate|].
      simpl in H. congruence.
    + rewrite (embedded_headers_off p g1 _ len He), bind_ret_l in H.
      bind_fault H as u; [discriminate|].
      destruct (len =? 0); [eauto|discriminate].
Qed.

(** X9.  Without [--embedded-http-headers] a call of [set_uri], from
    whatever state and on whatever memory, makes no host call but
    [call_set_uri] and [core_exit]: no header is appended and the decoder is
    not run; and the only undefined read it can make is one of the log
    itself. *)
Theorem set_uri_plain_calls p g :
  use_embedded_http_headers p = false ->
  forallb is_uri_or_exit (trace (set_uri p g)) = true /\
  forall o, fault (result (set_uri p g)) = Some o -> o = log_buffer.
Proof.
  intros He. split.
  - now apply set_uri_loop_plain_events.
  - intros o. now apply set_uri_loop_plain_fault.
Qed.

Lemma set_uri_plain_calls_witness :
  forallb is_uri_or_exit (trace (set_uri no_loop_plain get_header_log)) = true /\
  forall o,
    fault (result (set_uri no_loop_plain get_header_log)) = Some o ->
    o = log_buffer.
Proof.
  apply (set_uri_plain_calls no_loop_plain get_header_log). reflexivity.
Defined.

(** ** The mapping *)

Lemma set_uri_loop_frame fuel : forall p g did_wrap t g',
  set_uri_loop fuel p g did_wrap = (t, Ret g') ->
  fmem g' = fmem g /\ fend g' = fend g.
Proof.
  induction fuel as [|fuel IH]; intros p g dw t g' H; [discriminate|].
  cbn [set_uri_loop] in H.
  apply bind_ret_inv in H as ([g1 dw1] & t1 & t2 & Hw & H & _).
  assert (Hg : fmem g1 = fmem g /\ fend g1 = fend g).
  { unfold wrap_around in Hw. destruct (fend g <=? fcurrent g).
    - destruct dw; [discriminate|].
      destruct (do_loop p); inversion Hw; now split.
    - inversion Hw. now split. }
  apply bind_ret_inv in H as (len & t3 & t4 & _ & H & _).
  apply bind_ret_inv in H as ([uri len0] & t5 & t6 & _ & H & _).
  apply bind_ret_inv in H as ([] & t7 & t8 & _ & H & _).
  destruct (len0 =? 0).
  - apply IH in H. simpl in H. destruct H, Hg. split; congruence.
  - inversion H; subst. exact Hg.
Qed.

Lemma replay_frame p k : forall g g',
  snd (replay p g k) = Ret g' -> fmem g' = fmem g /\ fend g' = fend g.
Proof.
  induction k as [|k IH]; intros g g' H.
  - inversion H. now split.
  - cbn [replay] in H.
    destruct (set_uri p g) as [t [g1| |o|]] eqn:E; try discriminate.
    apply set_uri_loop_frame in E.
    specialize (IH g1 g'). destruct (replay p g1 k) as [ts r].
    simpl in *. destruct (IH H), E. split; congruence.
Qed.

(** X10.  [set_uri] moves [fcurrent] and nothing else: after [init_wlog]
    and any number of calls that returned, the file is still mapped as it
    was, its bytes are the bytes of the file, and [stop_wlog] hands
    [munmap] exactly the region that was mapped, the [st_size] bytes from
    [fbase]. *)
Theorem stop_wlog_unmaps_the_file p f pad g0 k g :
  init_wlog (Some f) pad = ret g0 ->
  snd (replay p g0 k) = Ret g ->
  fmem g = f ++ pad /\ firstn (fend g) (fmem g) = f /\
  stop_wlog g = (fbase, length f).
Proof.
  intros Hi Hr. apply replay_frame in Hr as [Hm He].
  unfold init_wlog in Hi. destruct (length f =? 0); [discriminate|].
  inversion Hi; subst g0. simpl in Hm, He. unfold stop_wlog, fbase.
  rewrite Hm, He, Nat.sub_0_r. repeat split. apply firstn_prefix.
Qed.

Lemma stop_wlog_unmaps_the_file_witness :
  fmem (at_record [str "/a"; str "/b"] [NUL] [str "/b"])
    = log_of [str "/a"; str "/b"] ++ [NUL] /\
  firstn (fend (at_record [str "/a"; str "/b"] [NUL] [str "/b"]))
         (fmem (at_record [str "/a"; str "/b"] [NUL] [str "/b"]))
    = log_of [str "/a"; str "/b"] /\
  stop_wlog (at_record [str "/a"; str "/b"] [NUL] [str "/b"])
    = (fbase, length (log_of [str "/a"; str "/b"])).
Proof.
  apply (stop_wlog_unmaps_the_file no_loop_plain
           (log_of [str "/a"; str "/b"]) [NUL]
           (at_record [str "/a"; str "/b"] [NUL] [str "/a"; str "/b"]) 3);
    reflexivity.
Defined.

(** ** The fatal log *)










(** ** Behind the file *)

Lemma replay_pad p recs pad pad' k :
  well_formed recs = true ->
  fst (replay p (at_record recs pad recs) k)
    = fst (replay p (at_record recs pad' recs) k) /\
  map_outcome fcurrent (snd (replay p (at_record recs pad recs) k))
    = map_outcome fcurrent (snd (replay p (at_record recs pad' recs) k)).
Proof.
  intros Hw. apply well_formed_spec in Hw as [Hnil Hn].
  rewrite !(replay_at_record p recs _ Hn Hnil k [] recs eq_refl).
  cbn [fst snd]. split; [reflexivity|].
  now destruct (snd (replay_recs p recs recs k)).
Qed.

(** X12.  What lies in memory behind the mapped file is of no account.
    For a log in the documented format, two runs that differ in those bytes
    only make the same host calls, call by call, and leave the cursor at
    the same offset (or break off in the same way), under every
    configuration and for every number of calls. *)
Theorem replay_ignores_pad p recs pad pad' k :
  well_formed recs = true ->
  exists g g',
    init_wlog (Some (log_of recs)) pad = ret g /\
    init_wlog (Some (log_of recs)) pad' = ret g' /\
    fst (replay p g k) = fst (replay p g' k) /\
    map_outcome fcurrent (snd (replay p g k))
      = map_outcome fcurrent (snd (replay p g' k)).
Proof.
  intros Hw. exists (at_record recs pad recs), (at_record recs pad' recs).
  pose proof (well_formed_spec recs Hw) as [Hnil _].
  split; [now apply init_wlog_log_of|].
  split; [now apply init_wlog_log_of|].
  now apply replay_pad.
Qed.

Lemma replay_ignores_pad_witness :
  exists g g',
    init_wlog (Some (log_of [str "/a"; []; str "H" ++ SOH :: str "/b"])) []
      = ret g /\
    init_wlog (Some (log_of [str "/a"; []; str "H" ++ SOH :: str "/b"]))
              (str "behind") = ret g' /\
    fst (replay no_loop_embedded g 5) = fst (replay no_loop_embedded g' 5) /\
    map_outcome fcurrent (snd (replay no_loop_embedded g 5))
      = map_outcome fcurrent (snd (replay no_loop_embedded g' 5)).
Proof.
  apply (replay_ignores_pad no_loop_embedded
           [str "/a"; []; str "H" ++ SOH :: str "/b"] [] (str "behind") 5).
  reflexivity.
Defined.
